(* ===== verification/_CoqProject ===== *)
-Q . S2P
Prelude.v
Traces.v
Vex.v
Screen.v
Controller.v
Mixer.v
MediumEric.v
MediumEricTask.v
TinyEric.v
TinyEricTask.v
