(* ===== verification/Prelude.v ===== *)
(** * Teleoperation controllers of the Skills Ontario 2024 robots

    This library models the two VEX V5 MicroPython programs of the
    repository and proves what they do:

    - [src/mediumEricForTheWin/src/main.py] (robot 1, "medium Eric"):
      a differential drive, a claw, a two-joint arm with two preset poses
      and a calibration button, a tray and a snow scoop;
    - [src/tinyEricForever/src/main.py] (robot 2, "tiny Eric"): a
      differential drive, a claw, a rack, a tray and a continuously
      rotating gate whose open/closed state is shown on the controller.

    Each program has two execution contexts (spec section 5): the
    cooperative [drive_task] thread, one loop iteration every 10 ms, and
    the button callbacks registered with [pressed]/[released], which run to
    completion when a button edge is dispatched. They share the global
    mode flags ([precise], resp. [speed] and [open]) and the motors.

    ** Files (in dependency order)

    - [Prelude] (this file): the Python-level vocabulary shared by both
      programs: the exception type [PyExc], the state-and-exception monad
      [PyM] with its notation in [py_scope], Python's float modulo
      [pymod], truthiness [py_truthy] and list indexing [py_index]; the
      frame predicate [preserves R m] (every run of [m] relates its start
      and end states by the preorder [R]) and the non-interference
      predicate [commutes f m], with their lemmas for each monad
      constructor and the tactic [preserves_tac]; the hint databases
      [teleop] and [teleop_rw] and the case-analysis tactic [zcase].
    - [Traces]: the two views of a [while True:] loop: [py_loop body n a],
      its first [n] iterations as one [PyM] computation, and infinite
      runs [infseq] of its step relation (a set of states closed under a
      step, after Leroy's mechanized-semantics course; no coinductive
      type).
    - [Vex]: the VEX motor/controller facade the programs call (spec
      section 6): commands [Cmd], the motor state [MotorState] and how
      each command changes it ([motor_step]), the [World] a program runs
      against (its globals, every motor, the log of issued commands), the
      monadic primitives [issue], [issue_all], [read_position],
      [get_glob], [set_glob] and the environment's moves; the setoid
      [cmds_eqv] (calls equal up to equality of their floats as
      numbers); the frames [motor_kept], [brakes_kept], [glob_kept] and
      [log_ext P] as preorders, with [vex_preserves_tac].
    - [Screen]: the controller's text display of spec section 6,
      modelled from the spec: a gmap from (row, column) to the character
      shown and a cursor; [display] replays the screen calls of a log
      ([clear_screen], [set_cursor], [print], [next_row]). The rendering
      of a float by [str] is a parameter.
    - [Controller]: buttons, edges, the callback table of a program
      ([Binding]s in registration order) and the dispatcher that runs the
      handlers bound to an edge; a preorder every bound handler respects
      is respected by every dispatch ([dispatch_rel]); the input sampler
      ([sampler]), which turns successive button levels into press and
      release edges, and the fact that its press edges are the rising
      transitions of the levels ([press_count_sampler]).
    - [Mixer]: the abstract drive-mixer specification of spec sections
      4.1 and 7: the nine [Maneuver]s, the fixed-priority [classify], the
      commands [realize] of a maneuver, the wheel powers [spec_powers] for
      each [ArcRule], and the interface between a robot and the mixer
      contract: the classes [DriveTrain] (the two drive motors) and
      [DriveMixer] (a mixer whose calls are [cmds_eqv] to [realize] of
      the classified maneuver). The client lemmas (deadband stops, the
      shape of the calls, ownership of the drive motors) are proved once,
      in a Section whose hypothesis is the class's law.
    - [MediumEric]: robot 1, module [MediumEric]: its motors, globals,
      [toggle_precise], [recalibrate], [control_motor], [move_arm_to],
      [print_position], the drive mixer ([remap], [drive_cmds]) and the
      loop iteration [drive_iter], the set-up and callback table, and the
      session step relation [reachable] with its invariants. Its mixer is
      a [DriveMixer] instance (declared at the end of the file).
    - [TinyEric]: robot 2, module [TinyEric]: its motors, globals,
      [toggle_speed], [recalibrate], [control_motor], the gate monitor
      ([gate_update], [gate_monitor]), the drive mixer and the loop
      iteration [drive_iter] with Python's local-variable scoping (the
      local frame [Locals]), the callback table, and the session: a world
      and the drive thread's state ([Running] with its locals, or [Ended]
      by an exception). Its mixer block is a [DriveMixer] instance.
    - [MediumEricTask]: robot 1's program as it runs: [drive_loop], the
      unrolled [while True:] of [drive_task], and [drive_step], one
      iteration as a step of the thread; [sampled_events], the sampler's
      edges dispatched to the callback table; [act_wf], what each motor
      can be doing under this program, and the invariant that every
      reachable state satisfies it.
    - [TinyEricTask]: [run_events], robot 2's session along a sequence
      of events, and the gate monitor's effect on the screen.

    Each file declares its definitions first and its theorems after
    them; the claims' witnesses (the theorems applied at concrete
    inputs) close the robot files.

    ** Modelling choices

    - Joystick samples are integers ([Z]) in [-100, 100] (the VEX axis
      API returns an integer percentage). Python floats (powers, angles)
      are modelled as exact rationals ([Q]); IEEE rounding is not
      modelled. Every branch of the programs is decided by a comparison of
      integer joystick samples, except the gate monitor's comparison of
      the angle, which is exact in [Q].
    - A Python function body is a [PyM] computation over the [World]: the
      world's command log records every motor and screen call in order,
      and an exception ([UnboundLocalError], [IndexError]) stops the body
      with the effects issued before it kept.
    - A blocking [spin_to_position] is modelled as arrival at the target
      before the next statement runs; a non-blocking one leaves the motor
      moving, and an environment step of the session moves motors.
    - Scheduling is cooperative (spec section 5): the top-level script
      runs to completion (motor set-up and callback registration) before
      the drive thread's first iteration; the sessions then interleave
      loop iterations, button edges and environment moves arbitrarily.
    - [drive_task]'s infinite loop is modelled three ways: one step of
      the session per iteration; [drive_loop inp n], its first [n]
      iterations for every [n] (the theorems hold for all [n], so no
      bound is chosen and none can run out); and the loop's step
      relation, on which running forever ([infseq]) is stated.
    - The vex library itself (device drivers, screen rendering) is not in
      the repository; [Vex] models it from spec section 6.

    ** Theorems (see each file)

    - refinement: each robot's drive mixer implements [Mixer.classify]
      and [Mixer.realize] at the powers [Mixer.spec_powers] of its
      profile (robot 1: the inner wheel drops by [steer]; robot 2: the
      outer wheel also rises, rotation at [4 * speed]); deadband,
      straight-line behaviour; bounds of robot 1's commanded powers;
    - invariants of the sessions by rule induction on [reachable]: the
      brake types of the set-up are never changed; robot 2's drive thread
      dies with [UnboundLocalError] on its first iteration, so it never
      drives nor writes the screen; robot 1's [precise] flag is the
      parity of the A presses;
    - frames: callbacks never command a drive motor, the drive loop
      leaves the mechanisms alone, robot 2's loop neither reads nor
      writes the global [speed];
    - the mode toggles, the jog controller's press/release commands and
      their interleaving, the preset mover's commands, its [IndexError]
      on an invalid index, the order of its two joint moves, and the
      calibration making presets relative to the calibration pose;
    - the gate monitor: its transition function, the number of screen
      writes along a sequence of angles, and that a pass of
      [gate_monitor] sees the gate only modulo whole turns;
    - the drive threads: robot 1's loop never exits and issues, per
      iteration, the mixer's calls and [sleep(10)]; robot 2's ends in its
      first iteration, and along any sequence of events has ended from
      the first tick on;
    - well-formed states: in every reachable state of robot 1 each
      motor is idle or doing what the program commands, and the tray
      motor is never commanded; the mode toggle is edge-triggered, one
      flip per press of A however long A is held;
    - composition: along any interleaving of iterations, button edges
      and motion, robot 1's drive motors receive exactly each
      iteration's mixer calls under the [precise] flag the presses of A
      left, in order; a pass of robot 2's gate monitor leaves on the
      screen exactly the new state's word, or nothing new.

    ** Not modelled

    - the device drivers of the vex runtime (out of scope by spec
      section 1): how a call reaches an actuator, radio polling, and the
      pixels of the screen (the screen is modelled as the characters in
      its cells); the import, [Brain()] and [Controller()] lines
      construct these devices and have no other behaviour;
    - the physics of a motor: a non-blocking move's arrival and any
      other motion are environment steps of the session, with no
      model of speed or time;
    - timing beyond the order of calls: a [wait] is a logged call;
    - IEEE rounding of floats (see above). *)

From stdpp Require Export base decidable list strings.
From Stdlib Require Export ZArith QArith Qabs Qround Lqa String.

(** ** Python exceptions and the state-and-exception monad *)

Inductive PyExc : Type :=
| UnboundLocalError (name : string)
| IndexError.

#[export] Instance PyExc_eq_dec : EqDecision PyExc.
Proof. solve_decision. Defined.

(** A Python statement sequence over a state [S]: the outcome is an
    exception or a value, and the state reached. *)
Definition PyM (S A : Type) : Type := S -> (PyExc + A) * S.

Definition py_ret {S A} (a : A) : PyM S A := fun s => (inr a, s).

Definition py_bind {S A B} (m : PyM S A) (k : A -> PyM S B) : PyM S B :=
  fun s => match m s with
           | (inl e, s') => (inl e, s')
           | (inr a, s') => k a s'
           end.

Definition py_raise {S A} (e : PyExc) : PyM S A := fun s => (inl e, s).

Definition py_get {S} : PyM S S := fun s => (inr s, s).

Definition py_modify {S} (f : S -> S) : PyM S unit := fun s => (inr tt, f s).

Declare Scope py_scope.
Delimit Scope py_scope with py.
Notation "x <- m ;; k" := (py_bind m (fun x => k))
  (at level 100, m at next level, right associativity) : py_scope.
Notation "m ;; k" := (py_bind m (fun _ => k))
  (at level 100, right associativity) : py_scope.
Open Scope py_scope.

(** An expression that may raise, such as [PRESETS[i]]. *)
Definition py_lift {S A} (r : PyExc + A) : PyM S A := fun s => (r, s).

(** Running a computation: the final state, whatever the outcome. *)
Definition py_exec {S A} (m : PyM S A) (s : S) : S := snd (m s).

(** Python [for x in xs: f(x)] for a body that returns nothing. *)
Fixpoint py_iter {S A} (f : A -> PyM S unit) (xs : list A) : PyM S unit :=
  match xs with
  | [] => py_ret tt
  | x :: xs' => f x ;; py_iter f xs'
  end.

(** ** Python numbers *)

(** [a < b] on floats. *)
Definition Qltb (a b : Q) : bool := negb (Qle_bool b a).

(** Python's float [x % m] for a positive [m]: [x - m * floor(x / m)],
    which lies in [[0, m)] also for a negative [x]. *)
Definition pymod (x m : Q) : Q := x - m * inject_Z (Qfloor (x / m)).

(** Python's truth value of a float. *)
Definition py_truthy (q : Q) : bool := negb (Qeq_bool q 0).

(** Python's [seq[i]] on a tuple: negative indices count from the end,
    anything else out of range raises [IndexError]. *)
Definition py_index {A} (xs : list A) (i : Z) : PyExc + A :=
  let n := Z.of_nat (List.length xs) in
  let j := if (i <? 0)%Z then (i + n)%Z else i in
  if ((0 <=? j) && (j <? n))%Z then
    match nth_error xs (Z.to_nat j) with
    | Some x => inr x
    | None => inl IndexError
    end
  else inl IndexError.

(** Floats equal as numbers give equal results. *)

#[export] Instance inject_Z_eq_proper : Proper (eq ==> Qeq) inject_Z.
Proof. intros a b ->. reflexivity. Qed.

#[export] Instance pymod_proper : Proper (Qeq ==> Qeq ==> Qeq) pymod.
Proof. intros x x' Ex m m' Em. unfold pymod. rewrite Ex, Em. reflexivity. Qed.

(** ** Frame reasoning on [PyM] computations

    [preserves R m]: every run of [m] relates its start and end states by
    the preorder [R] (e.g. "the drive motors are unchanged"); the lemmas
    follow the constructors of a computation, and [preserves_tac] (below)
    applies them, leaving the obligations of the primitive effects. *)

Definition preserves {S A} (R : S -> S -> Prop) (m : PyM S A) : Prop :=
  forall s, R s (py_exec m s).

(** ** Non-interference on [PyM] computations

    [commutes f m]: running [m] commutes with the state update [f]: the
    part of the state [f] sets is neither read nor overwritten by [m]. *)

Definition commutes {S A} (f : S -> S) (m : PyM S A) : Prop :=
  forall s, m (f s) = (fst (m s), f (snd (m s))).

(** ** Automation *)

Create HintDb teleop.
Create Rewrite HintDb teleop_rw.

(** Case analysis on the integer comparisons of the code. *)
Ltac zcase :=
  repeat match goal with
         | |- context [Z.ltb ?a ?b] => destruct (Z.ltb_spec a b)
         | |- context [Z.leb ?a ?b] => destruct (Z.leb_spec a b)
         | |- context [Z.gtb ?a ?b] => rewrite (Z.gtb_ltb a b)
         end.

(** ** Generic lemmas *)

Lemma Qltb_iff (a b : Q) : Qltb a b = true <-> a < b.
Proof.
  unfold Qltb. rewrite negb_true_iff, <- not_true_iff_false, Qle_bool_iff.
  split; [apply Qnot_le_lt | apply Qlt_not_le].
Qed.

Lemma Qltb_false (a b : Q) : Qltb a b = false <-> b <= a.
Proof.
  unfold Qltb. rewrite negb_false_iff. apply Qle_bool_iff.
Qed.

Lemma Qle_bool_false (a b : Q) : Qle_bool a b = false <-> b < a.
Proof.
  rewrite <- not_true_iff_false, Qle_bool_iff.
  split; [apply Qnot_le_lt | apply Qlt_not_le].
Qed.

Lemma Qabs_inject (y : Z) : Qabs (inject_Z y) == inject_Z (Z.abs y).
Proof. unfold inject_Z. rewrite <- Zabs_Qabs. reflexivity. Qed.

(** The absolute value of a joystick sample, as a float. *)
Lemma Qabs_inject_bounds (y : Z) :
  (-100 <= y <= 100)%Z -> 0 <= Qabs (inject_Z y) <= 100.
Proof.
  intros Hy. rewrite Qabs_inject. split.
  - change 0 with (inject_Z 0). rewrite <- Zle_Qle. lia.
  - change 100 with (inject_Z 100). rewrite <- Zle_Qle. lia.
Qed.

Lemma pymod_range (x m : Q) : 0 < m -> 0 <= pymod x m < m.
Proof.
  intros Hm. unfold pymod.
  pose proof (Qfloor_le (x / m)) as Hle. pose proof (Qlt_floor (x / m)) as Hlt.
  rewrite inject_Z_plus in Hlt. change (inject_Z 1) with 1 in Hlt.
  assert (Hx : m * (x / m) == x) by (field; intros E; rewrite E in Hm; apply (Qlt_irrefl 0 Hm)).
  split.
  - assert (m * inject_Z (Qfloor (x / m)) <= m * (x / m)) by (apply Qmult_le_l; auto). lra.
  - assert (m * (x / m) < m * (inject_Z (Qfloor (x / m)) + 1)) by (apply Qmult_lt_l; auto). lra.
Qed.

#[export] Hint Resolve Qabs_inject_bounds pymod_range : teleop.

(** An index Python accepts selects an element of the list. *)
Lemma py_index_In {A} (xs : list A) i x : py_index xs i = inr x -> In x xs.
Proof.
  unfold py_index. destruct (_ && _); [|discriminate].
  destruct (nth_error xs _) eqn:E; [|discriminate]. intros [= <-]. by eapply nth_error_In.
Qed.

Lemma Qfloor_plus_Z (q : Q) (k : Z) : Qfloor (q + inject_Z k) = (Qfloor q + k)%Z.
Proof.
  destruct q as [n d]. unfold Qfloor, Qplus, inject_Z. simpl.
  rewrite Z.mul_1_r, Pos.mul_1_r. apply Z.div_add. lia.
Qed.

(** Python's float [%] forgets whole multiples of the modulus. *)
Lemma pymod_add_multiple (x m : Q) (k : Z) :
  ~ m == 0 -> pymod (x + m * inject_Z k) m == pymod x m.
Proof.
  intros Hm. unfold pymod.
  assert (Hq : (x + m * inject_Z k) / m == x / m + inject_Z k) by (field; exact Hm).
  rewrite Hq, Qfloor_plus_Z, inject_Z_plus. ring.
Qed.

(** Filtering keeps a list whose elements all pass, and drops one whose
    elements all fail. *)
Lemma filter_Forall_true {A} (f : A -> bool) l :
  Forall (fun x => f x = true) l -> List.filter f l = l.
Proof. induction 1 as [|x l Hx _ IH]; simpl; [done|]. by rewrite Hx, IH. Qed.

Lemma filter_Forall_false {A} (f : A -> bool) l :
  Forall (fun x => f x = false) l -> List.filter f l = [].
Proof. induction 1 as [|x l Hx _ IH]; simpl; [done|]. by rewrite Hx, IH. Qed.

(** ** Frame lemmas *)

Section Preserves.
Context {S : Type} (R : S -> S -> Prop) `{!PreOrder R}.

Lemma preserves_ret {A} (a : A) : preserves R (py_ret a).
Proof. intros s. unfold py_exec, py_ret. simpl. reflexivity. Qed.

Lemma preserves_lift {A} (r : PyExc + A) : preserves R (py_lift r).
Proof. intros s. unfold py_exec, py_lift. simpl. reflexivity. Qed.

Lemma preserves_raise {A} e : preserves R (@py_raise S A e).
Proof. intros s. unfold py_exec, py_raise. simpl. reflexivity. Qed.

Lemma preserves_get : preserves R py_get.
Proof. intros s. unfold py_exec, py_get. simpl. reflexivity. Qed.

Lemma preserves_bind {A B} (m : PyM S A) (k : A -> PyM S B) :
  preserves R m -> (forall a, preserves R (k a)) -> preserves R (py_bind m k).
Proof.
  intros Hm Hk s. specialize (Hm s). unfold py_exec, py_bind in *.
  destruct (m s) as [[e|a] s'] eqn:E; simpl in *; [done|].
  etransitivity; [exact Hm|]. apply Hk.
Qed.

Lemma preserves_iter {A} (f : A -> PyM S unit) xs :
  (forall x, In x xs -> preserves R (f x)) -> preserves R (py_iter f xs).
Proof.
  induction xs as [|x xs IH]; intros Hf; simpl; [apply preserves_ret|].
  apply preserves_bind; [apply Hf; by left|]. intros _. apply IH. intros; apply Hf; by right.
Qed.
End Preserves.

Ltac preserves_tac :=
  repeat match goal with
         | |- preserves _ (py_bind _ _) => refine (preserves_bind _ _ _ _ _); [|intros]
         | |- preserves _ (py_ret _) => exact (preserves_ret _ _)
         | |- preserves _ (py_lift _) => exact (preserves_lift _ _)
         | |- preserves _ (py_raise _) => exact (preserves_raise _ _)
         | |- preserves _ py_get => exact (preserves_get _)
         end.

(** ** Non-interference lemmas *)

Lemma commutes_ret {S A} (f : S -> S) (a : A) : commutes f (py_ret a).
Proof. intros s. reflexivity. Qed.

Lemma commutes_lift {S A} (f : S -> S) (r : PyExc + A) : commutes f (py_lift r).
Proof. intros s. reflexivity. Qed.

Lemma commutes_bind {S A B} (f : S -> S) (m : PyM S A) (k : A -> PyM S B) :
  commutes f m -> (forall a, commutes f (k a)) -> commutes f (py_bind m k).
Proof.
  intros Hm Hk s. unfold py_bind. rewrite Hm.
  destruct (m s) as [[e|a] s']; simpl; [done|]. apply Hk.
Qed.
