(* ===== verification/Traces.v ===== *)
(** * Runs of a loop: bounded unrolling, finite and infinite sequences of steps

    [drive_task] in both programs is a [while True:] loop. This file
    gives the two views of such a loop that the robot files use:

    - [py_loop body n a]: the first [n] iterations of the loop, as a
      [PyM] computation threading the loop-carried value [a] (the local
      frame of the function); an exception raised by an iteration ends
      the loop, as it ends the Python function;
    - the step relation of the loop, one iteration per step, and the
      existence of an infinite run [infseq], after the development of
      sequences of transitions in X. Leroy's course on mechanized
      semantics: an infinite run is witnessed by a set of states that
      contains the start and from every member of which a step leads
      back into it, so no coinductive type is needed. *)

From S2P Require Import Prelude.

(** ** Bounded unrolling of [while True:] *)

(** Iteration [i] of the loop runs [body i] on the value the previous
    iteration returned. *)
Fixpoint py_loop {St A} (body : nat -> A -> PyM St A) (n : nat) (a : A) : PyM St A :=
  match n with
  | O => py_ret a
  | S n' => a' <- body 0%nat a ;; py_loop (fun i => body (S i)) n' a'
  end.

(** ** Infinite sequences of steps *)

Section Sequences.
Context {A : Type} (R : A -> A -> Prop).

(** There is an infinite sequence of steps from [a]. *)
Definition infseq (a : A) : Prop :=
  exists X : A -> Prop, X a /\ (forall a1, X a1 -> exists a2, R a1 a2 /\ X a2).

End Sequences.

(** ** Lemmas *)

Section SequenceLemmas.
Context {A : Type} (R : A -> A -> Prop).

(** The coinduction principle of [infseq]: a set of states closed under
    taking some step contains only states with an infinite run. *)
Lemma infseq_coinduction (X : A -> Prop) :
  (forall a, X a -> exists b, R a b /\ X b) -> forall a, X a -> infseq R a.
Proof. intros HX a Ha. by exists X. Qed.

(** Every state of a relation where every state has a step has an
    infinite run. *)
Lemma total_infseq : (forall a, exists b, R a b) -> forall a, infseq R a.
Proof.
  intros Htot a. apply (infseq_coinduction (fun _ => True)); [|done].
  intros a1 _. destruct (Htot a1) as [b ?]. by exists b.
Qed.

End SequenceLemmas.

Section LoopLemmas.
Context {St A : Type}.

(** Unrolling one iteration. *)
Lemma py_loop_S (body : nat -> A -> PyM St A) n a s a' s' :
  body 0%nat a s = (inr a', s') -> py_loop body (S n) a s = py_loop (fun i => body (S i)) n a' s'.
Proof. intros E. simpl. unfold py_bind. by rewrite E. Qed.

(** A loop whose iterations never raise runs all [n] of them. *)
Lemma py_loop_total (body : nat -> A -> PyM St A) :
  (forall i a s, exists a' s', body i a s = (inr a', s')) ->
  forall n a s, exists a' s', py_loop body n a s = (inr a', s').
Proof.
  intros Hb n. revert body Hb. induction n as [|n IH]; intros body Hb a s; [by eexists _, _|].
  destruct (Hb 0%nat a s) as (a' & s' & E). rewrite (py_loop_S _ _ _ _ _ _ E).
  apply IH. intros i; apply Hb.
Qed.

End LoopLemmas.
