(* ===== verification/Vex.v ===== *)
(** * The VEX motor and controller facade

    The programs call the vex library (spec section 6): [Motor.spin],
    [spin_to_position], [stop], [position], [reset_position],
    [set_stopping], the controller screen and [sleep]. The library is not
    part of the repository; this file models the calls the programs make
    as a command type [Cmd], the state of one motor [MotorState] and how
    each command changes it ([motor_step]), and the [World] a program
    runs against: its globals, every motor, and the log of the calls
    issued so far, in order. The monadic primitives [issue] and
    [read_position] are what the Python bodies of the two robots call. *)

From S2P Require Import Prelude.

(** ** The vex enumerations the programs use *)

Inductive DirectionType := FORWARD | REVERSE.
Inductive VelocityUnits := PERCENT | RPM.
Inductive RotationUnits := DEGREES.
Inductive BrakeType := COAST | BRAKE | HOLD.

#[export] Instance DirectionType_eq_dec : EqDecision DirectionType.
Proof. solve_decision. Defined.
#[export] Instance VelocityUnits_eq_dec : EqDecision VelocityUnits.
Proof. solve_decision. Defined.
#[export] Instance BrakeType_eq_dec : EqDecision BrakeType.
Proof. solve_decision. Defined.

(** A line printed on the controller screen: a literal, or
    [prefix + str(v)] for a float [v]. *)
Inductive ScreenText :=
| TLit (s : string)
| TNum (prefix : string) (v : Q).

(** ** Calls, in the order a program issues them *)

Inductive Cmd (M : Type) :=
| Spin (m : M) (d : DirectionType) (v : Q) (u : option VelocityUnits)
| SpinTo (m : M) (target : Q) (ru : RotationUnits) (rate : Q)
    (vu : VelocityUnits) (wait : bool)
| Stop (m : M)
| ResetPosition (m : M)
| SetStopping (m : M) (b : BrakeType)
| ClearScreen
| SetCursor (row col : Z)
| Print (t : ScreenText)
| NextRow
| Sleep (ms : Z).
Arguments Spin {M}. Arguments SpinTo {M}. Arguments Stop {M}.
Arguments ResetPosition {M}. Arguments SetStopping {M}.
Arguments ClearScreen {M}. Arguments SetCursor {M}. Arguments Print {M}.
Arguments NextRow {M}. Arguments Sleep {M}.

(** The motor a call addresses ([None] for screen calls and [sleep]). *)
Definition cmd_motor {M} (c : Cmd M) : option M :=
  match c with
  | Spin m _ _ _ | SpinTo m _ _ _ _ _ | Stop m | ResetPosition m
  | SetStopping m _ => Some m
  | _ => None
  end.

(** A write to the controller screen. *)
Definition is_screen_cmd {M} (c : Cmd M) : bool :=
  match c with
  | ClearScreen | SetCursor _ _ | Print _ | NextRow => true
  | _ => false
  end.

(** ** One motor *)

Inductive Activity :=
| Idle
| Spinning (v : Q) (u : option VelocityUnits)
| Stopped (b : BrakeType)
| MovingTo (target : Q) (rate : Q).

(** [phys] is the physical shaft angle, [zero] the angle at the last
    [reset_position], so that [position] reads [phys - zero]. *)
Record MotorState := {
  phys : Q;
  zero : Q;
  brake : BrakeType;
  act : Activity
}.

(** A motor as constructed: position 0, coasting when stopped (the vex
    default brake type). *)
Definition motor_init : MotorState :=
  {| phys := 0; zero := 0; brake := COAST; act := Idle |}.

Definition position (ms : MotorState) : Q := phys ms - zero ms.

Definition signed (d : DirectionType) (v : Q) : Q :=
  match d with FORWARD => v | REVERSE => - v end.

Definition with_act (ms : MotorState) (a : Activity) : MotorState :=
  {| phys := phys ms; zero := zero ms; brake := brake ms; act := a |}.

(** The effect of a call on the motor it addresses. A blocking
    [spin_to_position] returns once the motor is at its target, where it
    stops with its brake type. *)
Definition motor_step {M} (c : Cmd M) (ms : MotorState) : MotorState :=
  match c with
  | Spin _ d v u => with_act ms (Spinning (signed d v) u)
  | SpinTo _ t _ r _ true =>
      {| phys := zero ms + t; zero := zero ms; brake := brake ms;
         act := Stopped (brake ms) |}
  | SpinTo _ t _ r _ false => with_act ms (MovingTo t r)
  | Stop _ => with_act ms (Stopped (brake ms))
  | ResetPosition _ =>
      {| phys := phys ms; zero := phys ms; brake := brake ms; act := act ms |}
  | SetStopping _ b =>
      {| phys := phys ms; zero := zero ms; brake := b; act := act ms |}
  | _ => ms
  end.

(** ** The world a program runs against *)

Record World (G M : Type) := {
  glob : G;
  motors : M -> MotorState;
  log : list (Cmd M)
}.
Arguments glob {G M}. Arguments motors {G M}. Arguments log {G M}.

Section WorldOps.
Context {G M : Type} `{EqDecision M}.

Definition fupd (f : M -> MotorState) (m : M) (v : MotorState) : M -> MotorState :=
  fun m' => if decide (m' = m) then v else f m'.

Definition apply_cmd (c : Cmd M) (w : World G M) : World G M :=
  {| glob := glob w;
     motors := match cmd_motor c with
               | Some m => fupd (motors w) m (motor_step c (motors w m))
               | None => motors w
               end;
     log := log w ++ [c] |}.

(** A call to the facade: it is logged and changes its motor. *)
Definition issue (c : Cmd M) : PyM (World G M) unit := py_modify (apply_cmd c).

(** A straight-line sequence of calls. *)
Definition issue_all (cs : list (Cmd M)) : PyM (World G M) unit := py_iter issue cs.

(** [motor.position(DEGREES)]. *)
Definition read_position (m : M) : PyM (World G M) Q :=
  fun w => (inr (position (motors w m)), w).

Definition get_glob : PyM (World G M) G := fun w => (inr (glob w), w).

Definition set_glob (g : G) : PyM (World G M) unit :=
  py_modify (fun w => {| glob := g; motors := motors w; log := log w |}).

(** The environment: a motor's shaft is turned to the angle [p] (by its
    own spinning or by hand); a moving motor that reaches its target
    stops there. *)
Definition env_move (m : M) (p : Q) (w : World G M) : World G M :=
  let ms := motors w m in
  {| glob := glob w;
     motors := fupd (motors w) m
                 {| phys := p; zero := zero ms; brake := brake ms; act := act ms |};
     log := log w |}.

Definition env_arrive (m : M) (w : World G M) : World G M :=
  let ms := motors w m in
  match act ms with
  | MovingTo t _ =>
      {| glob := glob w;
         motors := fupd (motors w) m
                     {| phys := zero ms + t; zero := zero ms; brake := brake ms;
                        act := Stopped (brake ms) |};
         log := log w |}
  | _ => w
  end.
End WorldOps.

(** ** Calls up to equality of their float arguments

    Two calls are equivalent when they differ only by floats that are
    equal as numbers ([Qeq]): [abs(x) / 2] and [abs(x) * 0.5] command the
    same power. *)

Definition text_eqv (t1 t2 : ScreenText) : Prop :=
  match t1, t2 with
  | TNum p v, TNum p' v' => p = p' /\ v == v'
  | _, _ => t1 = t2
  end.

Definition cmd_eqv {M} (c1 c2 : Cmd M) : Prop :=
  match c1, c2 with
  | Spin m d v u, Spin m' d' v' u' => m = m' /\ d = d' /\ v == v' /\ u = u'
  | SpinTo m t ru r vu b, SpinTo m' t' ru' r' vu' b' =>
      m = m' /\ t == t' /\ ru = ru' /\ r == r' /\ vu = vu' /\ b = b'
  | Print t, Print t' => text_eqv t t'
  | _, _ => c1 = c2
  end.

Definition cmds_eqv {M} : relation (list (Cmd M)) := Forall2 cmd_eqv.

#[export] Instance text_eqv_equiv : Equivalence text_eqv.
Proof.
  split.
  - intros [|]; simpl; auto with qarith.
  - intros [|] [|]; simpl; intuition (subst; auto with qarith).
  - intros [|] [|] [|]; simpl; intuition (subst; eauto with qarith; try congruence).
Qed.

#[export] Instance cmd_eqv_equiv {M} : Equivalence (@cmd_eqv M).
Proof.
  split.
  - intros []; simpl; intuition (auto with qarith; reflexivity).
  - intros [] []; simpl; intuition (subst; auto with qarith; try discriminate; try by symmetry).
  - intros [] [] []; simpl; intuition (subst; eauto with qarith; try discriminate;
      try congruence; try by etransitivity).
Qed.

#[export] Instance cmds_eqv_equiv {M} : Equivalence (@cmds_eqv M).
Proof. unfold cmds_eqv. typeclasses eauto. Qed.

#[export] Instance Spin_proper {M} (m : M) d :
  Proper (Qeq ==> eq ==> cmd_eqv) (Spin m d).
Proof. intros v v' Hv u u' ->. simpl. auto. Qed.

(** ** Frames of the facade's primitives *)

Definition is_set_stopping {M} (c : Cmd M) : bool :=
  match c with SetStopping _ _ => true | _ => false end.

Section Frames.
Context {G M : Type} `{EqDecision M}.
Implicit Types (w : World G M).

(** Motor [m] is unchanged. *)
Definition motor_kept (m : M) w w' : Prop := motors w' m = motors w m.
(** No brake type is changed. *)
Definition brakes_kept w w' : Prop := forall m, brake (motors w' m) = brake (motors w m).
(** The globals are unchanged. *)
Definition glob_kept w w' : Prop := glob w' = glob w.

End Frames.

#[export] Instance motor_kept_preorder {G M} (m : M) : PreOrder (@motor_kept G M m).
Proof. split; [intros w; done | intros w1 w2 w3 H1 H2; unfold motor_kept in *; congruence]. Qed.
#[export] Instance brakes_kept_preorder {G M} : PreOrder (@brakes_kept G M).
Proof. split; [intros w m; done | intros w1 w2 w3 H1 H2 m; unfold brakes_kept in *; congruence]. Qed.
#[export] Instance glob_kept_preorder {G M} : PreOrder (@glob_kept G M).
Proof. split; [intros w; done | intros w1 w2 w3 H1 H2; unfold glob_kept in *; congruence]. Qed.

(** The log grows only by calls satisfying [P]. *)
Definition log_ext {G M} (P : Cmd M -> Prop) (w w' : World G M) : Prop :=
  exists cs, log w' = log w ++ cs /\ Forall P cs.

#[export] Instance log_ext_preorder {G M} (P : Cmd M -> Prop) : PreOrder (@log_ext G M P).
Proof.
  split.
  - intros w. exists []. by rewrite app_nil_r.
  - intros w1 w2 w3 [cs1 [E1 H1]] [cs2 [E2 H2]]. exists (cs1 ++ cs2).
    rewrite E2, E1, app_assoc. split; [done|]. by apply Forall_app_2.
Qed.

(** ** Lemmas on the facade *)

Section WorldLemmas.
Context {G M : Type} `{EqDecision M}.
Implicit Types (w : World G M) (cs : list (Cmd M)) (c : Cmd M).

Lemma issue_all_run cs w :
  issue_all cs w = (inr tt, fold_left (fun w c => apply_cmd c w) cs w).
Proof. revert w. induction cs as [|c cs IH]; intros w; [reflexivity|]. apply IH. Qed.

Lemma exec_issue_all cs w :
  py_exec (issue_all cs) w = fold_left (fun w c => apply_cmd c w) cs w.
Proof. unfold py_exec. by rewrite issue_all_run. Qed.

Lemma log_issue_all cs w : log (py_exec (issue_all cs) w) = log w ++ cs.
Proof.
  rewrite exec_issue_all. revert w. induction cs as [|c cs IH]; intros w.
  - by rewrite app_nil_r.
  - simpl. rewrite IH. simpl. by rewrite <- app_assoc.
Qed.

Lemma glob_issue_all cs w : glob (py_exec (issue_all cs) w) = glob w.
Proof.
  rewrite exec_issue_all. revert w. induction cs as [|c cs IH]; intros w; [done|].
  simpl. by rewrite IH.
Qed.

(** A motor no call of [cs] addresses keeps its state. *)
Lemma motors_issue_all_other cs w m :
  Forall (fun c => cmd_motor c <> Some m) cs ->
  motors (py_exec (issue_all cs) w) m = motors w m.
Proof.
  rewrite exec_issue_all. revert w. induction cs as [|c cs IH]; intros w Hcs; [done|].
  inversion Hcs as [|? ? Hc Hrest]; subst. simpl. rewrite IH by done. simpl.
  destruct (cmd_motor c) as [m'|] eqn:E; [|done].
  unfold fupd. rewrite decide_False; [done|]. congruence.
Qed.

Lemma motors_apply_cmd_self c w m :
  cmd_motor c = Some m -> motors (apply_cmd c w) m = motor_step c (motors w m).
Proof. intros E. simpl. rewrite E. unfold fupd. by rewrite decide_True. Qed.

Lemma motors_apply_cmd_other c w m :
  cmd_motor c <> Some m -> motors (apply_cmd c w) m = motors w m.
Proof.
  intros E. simpl. destruct (cmd_motor c) as [m'|] eqn:E'; [|done].
  unfold fupd. rewrite decide_False; [done|]. congruence.
Qed.

Lemma glob_env_move m p w : glob (env_move m p w) = glob w.
Proof. done. Qed.

Lemma log_env_move m p w : log (env_move m p w) = log w.
Proof. done. Qed.

Lemma glob_env_arrive m w : glob (env_arrive m w) = glob w.
Proof. unfold env_arrive. by destruct (act (motors w m)). Qed.

Lemma log_env_arrive m w : log (env_arrive m w) = log w.
Proof. unfold env_arrive. by destruct (act (motors w m)). Qed.
End WorldLemmas.

(** [reset_position] makes the motor read 0 where it stands. *)
Lemma position_reset {M} (m : M) ms : position (motor_step (ResetPosition m) ms) == 0.
Proof. unfold position. simpl. ring. Qed.

(** A blocking [spin_to_position] leaves the motor reading its target. *)
Lemma position_spin_to_wait {M} (m : M) t ru r vu ms :
  position (motor_step (SpinTo m t ru r vu true) ms) == t.
Proof. unfold position. simpl. ring. Qed.

#[export] Hint Rewrite @log_issue_all @glob_issue_all @glob_env_move @log_env_move
  @glob_env_arrive @log_env_arrive : teleop_rw.

(** Equivalent calls address the same motor. *)
Lemma cmd_eqv_motor {M} (c1 c2 : Cmd M) : cmd_eqv c1 c2 -> cmd_motor c1 = cmd_motor c2.
Proof. destruct c1, c2; simpl; intuition (subst; congruence). Qed.

Lemma brake_motor_step {M} (c : Cmd M) ms :
  is_set_stopping c = false -> brake (motor_step c ms) = brake ms.
Proof. destruct c; simpl; try done; by destruct wait. Qed.


Section FramePrimitives.
Context {G M : Type} `{EqDecision M}.
Context (R : World G M -> World G M -> Prop) `{!PreOrder R}.

Lemma preserves_issue c : (forall w, R w (apply_cmd c w)) -> preserves R (issue c).
Proof. intros H w. apply H. Qed.

Lemma preserves_issue_all cs :
  (forall c w, In c cs -> R w (apply_cmd c w)) -> preserves R (issue_all cs).
Proof. intros H. apply preserves_iter; [done|]. intros c Hc. apply preserves_issue. auto. Qed.

Lemma preserves_read_position m : preserves R (read_position m).
Proof. intros w. unfold py_exec. simpl. reflexivity. Qed.

Lemma preserves_get_glob : preserves R get_glob.
Proof. intros w. unfold py_exec. simpl. reflexivity. Qed.

Lemma preserves_set_glob g :
  (forall w, R w {| glob := g; motors := motors w; log := log w |}) -> preserves R (set_glob g).
Proof. intros H w. apply H. Qed.
End FramePrimitives.

Lemma motor_kept_apply {G M} `{EqDecision M} (m : M) (c : Cmd M) (w : World G M) :
  cmd_motor c <> Some m -> motor_kept m w (apply_cmd c w).
Proof. apply motors_apply_cmd_other. Qed.

Lemma brakes_kept_apply {G M} `{EqDecision M} (c : Cmd M) (w : World G M) :
  is_set_stopping c = false -> brakes_kept w (apply_cmd c w).
Proof.
  intros Hc m. destruct (decide (cmd_motor c = Some m)) as [E|E].
  - rewrite motors_apply_cmd_self by done. by apply brake_motor_step.
  - by rewrite motors_apply_cmd_other.
Qed.

Ltac vex_preserves_tac :=
  repeat (first [progress preserves_tac |
          match goal with
          | |- preserves _ (issue_all _) => refine (preserves_issue_all _ _ _); intros ? ? ?
          | |- preserves _ (issue _) => refine (preserves_issue _ _ _); intros ?
          | |- preserves _ (read_position _) => exact (preserves_read_position _ _)
          | |- preserves _ get_glob => exact (preserves_get_glob _)
          | |- preserves _ (set_glob _) => refine (preserves_set_glob _ _ _); intros ?
          end]).

Lemma log_ext_apply {G M} `{EqDecision M} (P : Cmd M -> Prop) c (w : World G M) :
  P c -> log_ext P w (apply_cmd c w).
Proof. intros Hc. exists [c]. split; [done|]. by constructor. Qed.

Lemma log_ext_mono {G M} (P Q : Cmd M -> Prop) (w w' : World G M) :
  (forall c, P c -> Q c) -> log_ext P w w' -> log_ext Q w w'.
Proof. intros HPQ [cs [E Hcs]]. exists cs. split; [done|]. by eapply Forall_impl. Qed.
