(* ===== verification/Screen.v ===== *)
(** * The controller screen

    Spec section 6: the controller has a simple text display with
    [clear_screen()], [set_cursor(row, col)], [print(text)] and
    [next_row()]. The vex library is not in the repository; this file
    models the display from the spec: a finite map from (row, column) to
    the character shown there and a cursor. [print] writes its text
    character by character from the cursor, which it leaves after the
    last character; [next_row] moves the cursor to column 1 of the next
    row; [clear_screen] erases every cell and leaves the cursor where it
    is. The display is a function of the calls in the log: [display]
    replays them, and motor calls and [sleep] leave it alone.

    [TNum prefix v] prints [prefix + str(v)]; Python's [str] of a float
    is the library's business, so the display is parameterised by the
    rendering [num_text] of a number, and every theorem holds for any
    rendering. *)

From S2P Require Import Prelude Vex.
From stdpp Require Import gmap.
From Stdlib Require Import Ascii.

Record Screen := mkScreen { cells : gmap (Z * Z) ascii; cursor : Z * Z }.

Section Display.
Context (num_text : Q -> string).

Definition text_of (t : ScreenText) : string :=
  match t with TLit s => s | TNum p v => p ++ num_text v end.

(** The cells after printing [s] at row [r] from column [c]. *)
Fixpoint put (r c : Z) (s : string) (m : gmap (Z * Z) ascii) : gmap (Z * Z) ascii :=
  match s with
  | EmptyString => m
  | String a s' => put r (c + 1)%Z s' (<[(r, c) := a]> m)
  end.

Definition screen_step {M} (cmd : Cmd M) (scr : Screen) : Screen :=
  match cmd with
  | ClearScreen => mkScreen ∅ (cursor scr)
  | SetCursor r c => mkScreen (cells scr) (r, c)
  | Print t =>
      let '(r, c) := cursor scr in
      mkScreen (put r c (text_of t) (cells scr)) (r, (c + Z.of_nat (String.length (text_of t)))%Z)
  | NextRow => mkScreen (cells scr) ((fst (cursor scr) + 1)%Z, 1%Z)
  | _ => scr
  end.

(** The screen after the calls of a log, from the screen [scr]. *)
Definition display {M} (log : list (Cmd M)) (scr : Screen) : Screen :=
  fold_left (fun s c => screen_step c s) log scr.

End Display.

(** ** Lemmas *)

Section DisplayLemmas.
Context (num_text : Q -> string).

Lemma display_app {M} (l1 l2 : list (Cmd M)) scr :
  display num_text (l1 ++ l2) scr = display num_text l2 (display num_text l1 scr).
Proof. unfold display. apply fold_left_app. Qed.

(** A call that is not a screen call leaves the screen alone. *)
Lemma screen_step_quiet {M} (c : Cmd M) scr :
  is_screen_cmd c = false -> screen_step num_text c scr = scr.
Proof. by destruct c. Qed.

(** What [put] shows at a cell: the character of the text at that
    column on its row, what was there before elsewhere. *)
Lemma lookup_put r c s m r' c' :
  put r c s m !! (r', c') =
  if bool_decide (r' = r /\ c <= c' < c + Z.of_nat (String.length s))%Z
  then String.get (Z.to_nat (c' - c)) s else m !! (r', c').
Proof.
  revert c m. induction s as [|a s IH]; intros c m; simpl.
  - case_bool_decide; [lia | done].
  - rewrite IH, lookup_insert.
    destruct (decide ((r, c) = (r', c'))) as [E|Hne].
    + injection E as <- <-. rewrite bool_decide_false by lia.
      rewrite bool_decide_true by (split; [done | simpl; lia]). by rewrite Z.sub_diag.
    + destruct (decide (r' = r /\ (c + 1 <= c' < c + 1 + Z.of_nat (String.length s))%Z))
        as [Hin|Hout].
      * rewrite bool_decide_true by done. rewrite bool_decide_true by (simpl; lia).
        by replace (Z.to_nat (c' - c)) with (S (Z.to_nat (c' - (c + 1)))) by lia.
      * rewrite bool_decide_false by done. rewrite bool_decide_false; [done|].
        intros [-> Hc]. simpl in Hc. assert (c <> c') by (intros ->; by apply Hne).
        apply Hout. split; [done | lia].
Qed.

End DisplayLemmas.
