(* ===== verification/Controller.v ===== *)
(** * Controller buttons and callback dispatch

    Both programs register their button handlers at the end of the
    top-level script: [controller.buttonX.pressed(f, args)] and
    [controller.buttonX.released(f, args)] bind a function and its bound
    arguments to a button edge. This file models the buttons and edges,
    a callback table (a list of bindings in registration order), and the
    dispatch of an edge: every handler bound to it runs to completion, in
    registration order; an exception ends only the handler that raised
    it, whose effects before the raise stay (spec section 5).

    It also models the input sampler of the vex library (spec sections 2
    and 6), which is not in the repository: the controller samples the
    level of every button, and reports an edge for each button whose
    level changed since the previous sample, a press when it went down
    and a release when it came back up. *)

From S2P Require Import Prelude.

Inductive Button :=
| ButtonA | ButtonB | ButtonX | ButtonY
| ButtonL1 | ButtonL2 | ButtonR1 | ButtonR2
| ButtonUp | ButtonDown | ButtonLeft | ButtonRight.

Inductive Edge := Pressed | Released.

#[export] Instance Button_eq_dec : EqDecision Button.
Proof. solve_decision. Defined.
#[export] Instance Edge_eq_dec : EqDecision Edge.
Proof. solve_decision. Defined.

(** One registration: [button.pressed(handler)] or [button.released(handler)]. *)
Record Binding (H : Type) := mkBinding {
  b_button : Button;
  b_edge : Edge;
  b_handler : H
}.
Arguments mkBinding {H}. Arguments b_button {H}. Arguments b_edge {H}.
Arguments b_handler {H}.

(** ** The input sampler *)

(** The order in which the sampler scans the buttons. *)
Definition all_buttons : list Button :=
  [ButtonA; ButtonB; ButtonX; ButtonY; ButtonL1; ButtonL2; ButtonR1; ButtonR2;
   ButtonUp; ButtonDown; ButtonLeft; ButtonRight].

(** The levels of the buttons at one sample: [true] when held down. *)
Definition Levels := Button -> bool.

(** The edge between two successive levels of a button, if any. *)
Definition edge_of (was now : bool) : option Edge :=
  match was, now with
  | false, true => Some Pressed
  | true, false => Some Released
  | _, _ => None
  end.

Definition button_edges (prev cur : Levels) (b : Button) : list (Button * Edge) :=
  match edge_of (prev b) (cur b) with Some e => [(b, e)] | None => [] end.

(** The edges reported between two samples. *)
Definition sample_edges (prev cur : Levels) : list (Button * Edge) :=
  flat_map (button_edges prev cur) all_buttons.

(** The edges reported along a sequence of samples, from the levels [prev]. *)
Fixpoint sampler (prev : Levels) (samples : list Levels) : list (Button * Edge) :=
  match samples with
  | [] => []
  | cur :: rest => sample_edges prev cur ++ sampler cur rest
  end.

(** The number of press edges of [b] in a sequence of edges. *)
Definition press_count (b : Button) (es : list (Button * Edge)) : nat :=
  List.length (List.filter (fun be => bool_decide (be = (b, Pressed))) es).

(** The number of times a sequence of levels goes from up to down. *)
Fixpoint rises (was : bool) (ls : list bool) : nat :=
  match ls with
  | [] => 0
  | l :: rest => (if negb was && l then 1 else 0) + rises l rest
  end.

Section Dispatch.
Context {H S : Type} (run : H -> PyM S unit).

(** The handlers bound to an edge, in registration order. *)
Definition handlers_for (tbl : list (Binding H)) (b : Button) (e : Edge) : list H :=
  map b_handler
    (List.filter (fun bd => bool_decide (b_button bd = b) && bool_decide (b_edge bd = e)) tbl).

(** Dispatching an edge runs its handlers one after the other. *)
Definition dispatch (tbl : list (Binding H)) (b : Button) (e : Edge) (s : S) : S :=
  fold_left (fun s h => py_exec (run h) s) (handlers_for tbl b e) s.

Lemma handlers_for_In tbl b e h :
  In h (handlers_for tbl b e) ->
  In (mkBinding b e h) tbl.
Proof.
  unfold handlers_for. rewrite in_map_iff. intros [[b' e' h'] [<- Hin]].
  apply filter_In in Hin as [Hin Hbe]. simpl in *.
  apply andb_prop in Hbe as [Hb He]. apply bool_decide_eq_true in Hb, He. by subst.
Qed.

(** A preorder that holds across every handler bound to the edge holds
    across the dispatch of the edge. *)
Lemma dispatch_rel (R : S -> S -> Prop) `{!PreOrder R} tbl b e s :
  (forall h s, In h (handlers_for tbl b e) -> R s (py_exec (run h) s)) ->
  R s (dispatch tbl b e s).
Proof.
  unfold dispatch. generalize (handlers_for tbl b e) as hs.
  intros hs. revert s. induction hs as [|h hs IH]; intros s Hrun; simpl; [reflexivity|].
  etransitivity; [apply Hrun; by left|]. apply IH. intros; apply Hrun; by right.
Qed.

(** A property every handler of the table preserves is preserved by
    every dispatch. *)
Lemma dispatch_preserves (P : S -> Prop) tbl b e s :
  (forall h s, In h (handlers_for tbl b e) -> P s -> P (py_exec (run h) s)) ->
  P s -> P (dispatch tbl b e s).
Proof.
  intros Hrun Hs. revert Hs.
  assert (PreOrder (fun s s' => P s -> P s')) by (split; repeat intro; eauto).
  by apply (dispatch_rel (fun s s' => P s -> P s')).
Qed.
End Dispatch.

(** ** Lemmas on the sampler *)

Lemma all_buttons_complete b : In b all_buttons.
Proof. destruct b; simpl; tauto. Qed.

Lemma press_count_app b es1 es2 :
  press_count b (es1 ++ es2) = (press_count b es1 + press_count b es2)%nat.
Proof. unfold press_count. by rewrite List.filter_app, List.length_app. Qed.

Lemma press_count_button_edges prev cur b b' :
  press_count b (button_edges prev cur b') =
  if bool_decide (b' = b) && negb (prev b') && cur b' then 1%nat else 0%nat.
Proof.
  unfold press_count, button_edges, edge_of.
  destruct (prev b'), (cur b'); simpl; repeat case_bool_decide; simplify_eq; done.
Qed.

(** Between two samples, a button has a press edge exactly when it went down. *)
Lemma press_count_sample_edges prev cur b :
  press_count b (sample_edges prev cur) = if negb (prev b) && cur b then 1%nat else 0%nat.
Proof.
  unfold sample_edges, all_buttons. simpl. rewrite !press_count_app, !press_count_button_edges.
  destruct b; simpl; rewrite ?andb_false_r; simpl; unfold press_count; simpl; lia.
Qed.

(** The sampler is edge-triggered: the press edges it reports for a
    button are the button's rising transitions, however long it is held. *)
Lemma press_count_sampler prev samples b :
  press_count b (sampler prev samples) = rises (prev b) (map (fun l => l b) samples).
Proof.
  revert prev. induction samples as [|cur rest IH]; intros prev; [done|].
  simpl. by rewrite press_count_app, press_count_sample_edges, IH.
Qed.
