(* ===== verification/Mixer.v ===== *)
(** * The drive mixer: abstract specification and interface

    Spec sections 4.1 and 7: every loop iteration the drive mixer reads
    the forward axis [y] ([axis3]) and the turn axis [x] ([axis1]) and
    resolves, in a fixed priority order, to exactly one of nine
    maneuvers, each realised by one command per drive motor (left first).
    This file states that contract independently of either robot:

    - [Maneuver] and [classify]: the decision tree of spec 4.1 steps 2-4;
    - [realize]: the two drive-motor commands of a maneuver;
    - [ArcRule] and [spec_powers]: how a tuning profile turns [speed],
      [steer] and the rotation power into the two wheel powers (spec 4.1
      step 4: the inner wheel drops by [steer], and in the second robot
      the outer wheel also rises by [steer]);
    - the class [DriveTrain] (the two drive motors of a robot) and the
      class [DriveMixer]: a mixer of some mode type whose commands are,
      up to equality of the powers as numbers, [realize (classify y x)]
      at powers it names. The lemmas at the end are proved in a Section
      whose hypothesis is exactly the class's law, so they hold for every
      instance; the robots' files instantiate the class. *)

From S2P Require Import Prelude Vex.

Inductive Maneuver :=
| FwdStraight | FwdArcRight | FwdArcLeft
| BackStraight | BackArcRight | BackArcLeft
| RotRight | RotLeft | Halt.

#[export] Instance Maneuver_eq_dec : EqDecision Maneuver.
Proof. solve_decision. Defined.

(** Spec 4.1 step 3 and 4: forward ([y > 5]) before backward
    ([y < -5]) before rotation ([x > 15], [x < -15]) before stop; within
    a translation, arcing right ([x > 5]) before left ([x < -5]). *)
Definition classify (y x : Z) : Maneuver :=
  if (5 <? y)%Z then
    if (5 <? x)%Z then FwdArcRight else if (x <? -5)%Z then FwdArcLeft else FwdStraight
  else if (y <? -5)%Z then
    if (5 <? x)%Z then BackArcRight else if (x <? -5)%Z then BackArcLeft else BackStraight
  else if (15 <? x)%Z then RotRight
  else if (x <? -15)%Z then RotLeft
  else Halt.

Class DriveTrain (M : Type) := {
  left_drive : M;
  right_drive : M
}.

(** The directions of the left and right drive motors, [None] for a stop. *)
Definition directions (mv : Maneuver) : option (DirectionType * DirectionType) :=
  match mv with
  | FwdStraight | FwdArcRight | FwdArcLeft => Some (FORWARD, FORWARD)
  | BackStraight | BackArcRight | BackArcLeft => Some (REVERSE, REVERSE)
  | RotRight => Some (FORWARD, REVERSE)
  | RotLeft => Some (REVERSE, FORWARD)
  | Halt => None
  end.

(** The commands realising a maneuver at left/right powers [pl], [pr]:
    two [spin]s in percent, or two [stop]s (with each motor's brake type). *)
Definition realize {M} `{DriveTrain M} (mv : Maneuver) (pl pr : Q) : list (Cmd M) :=
  match directions mv with
  | Some (dl, dr) => [Spin left_drive dl pl (Some PERCENT); Spin right_drive dr pr (Some PERCENT)]
  | None => [Stop left_drive; Stop right_drive]
  end.

(** How the wheel powers are derived from the profile's quantities. *)
Inductive ArcRule :=
| InnerDrop            (** the inner wheel runs at [speed - steer] *)
| OuterRaiseInnerDrop. (** and the outer wheel at [speed + steer] *)

(** Whether the left wheel is the inner, slowed wheel of an arc: in both
    programs it is when arcing left forwards and right backwards. *)
Definition left_is_inner (mv : Maneuver) : bool :=
  match mv with FwdArcLeft | BackArcRight => true | _ => false end.

Definition is_arc (mv : Maneuver) : bool :=
  match mv with FwdArcRight | FwdArcLeft | BackArcRight | BackArcLeft => true | _ => false end.

Definition is_rotation (mv : Maneuver) : bool :=
  match mv with RotRight | RotLeft => true | _ => false end.

(** Spec 4.1 steps 1-5: the left and right powers of a maneuver. *)
Definition spec_powers (rule : ArcRule) (speed steer rot : Q) (mv : Maneuver) : Q * Q :=
  if is_rotation mv then (rot, rot)
  else if is_arc mv then
    let inner := speed - steer in
    let outer := match rule with InnerDrop => speed | OuterRaiseInnerDrop => speed + steer end in
    if left_is_inner mv then (inner, outer) else (outer, inner)
  else (speed, speed).

(** The head of a call: which motor, and spin direction or stop. *)
Inductive Head (M : Type) := HSpin (m : M) (d : DirectionType) | HStop (m : M) | HOther.
Arguments HSpin {M}. Arguments HStop {M}. Arguments HOther {M}.

Definition cmd_head {M} (c : Cmd M) : Head M :=
  match c with Spin m d _ _ => HSpin m d | Stop m => HStop m | _ => HOther end.

(** The heads of the commands realising a maneuver, whatever the powers. *)
Definition maneuver_heads {M} `{DriveTrain M} (mv : Maneuver) : list (Head M) :=
  match directions mv with
  | Some (dl, dr) => [HSpin left_drive dl; HSpin right_drive dr]
  | None => [HStop left_drive; HStop right_drive]
  end.

#[export] Instance realize_proper {M} `{DriveTrain M} mv :
  Proper (Qeq ==> Qeq ==> cmds_eqv) (realize mv).
Proof.
  intros pl pl' Hl pr pr' Hr. unfold realize.
  destruct (directions mv) as [[dl dr]|]; repeat constructor; simpl; auto.
Qed.

(** A drive mixer refining the specification: its commands realise the
    classified maneuver at the powers [mix_powers]. *)
Class DriveMixer (M Mode : Type) `{DriveTrain M} := {
  mix : Mode -> Z -> Z -> list (Cmd M);
  mix_powers : Mode -> Z -> Z -> Q * Q;
  mix_refines : forall md y x,
    cmds_eqv (mix md y x)
      (realize (classify y x) (fst (mix_powers md y x)) (snd (mix_powers md y x)))
}.

(** ** The decision tree *)

Lemma classify_Halt_iff (y x : Z) :
  classify y x = Halt <-> (-5 <= y <= 5 /\ -15 <= x <= 15)%Z.
Proof. unfold classify. zcase; split; intros; try discriminate; try lia; done. Qed.

Lemma cmd_eqv_head {M} (c1 c2 : Cmd M) : cmd_eqv c1 c2 -> cmd_head c1 = cmd_head c2.
Proof. destruct c1, c2; simpl; intuition (subst; congruence). Qed.

Lemma cmds_eqv_heads {M} (cs1 cs2 : list (Cmd M)) :
  cmds_eqv cs1 cs2 -> map cmd_head cs1 = map cmd_head cs2.
Proof. induction 1 as [|c1 c2 ? ? Hc]; simpl; [done|]. by rewrite (cmd_eqv_head _ _ Hc), IHForall2. Qed.

Lemma realize_heads {M} `{DriveTrain M} mv pl pr :
  map cmd_head (realize mv pl pr) = maneuver_heads mv.
Proof. unfold realize, maneuver_heads. by destruct (directions mv) as [[]|]. Qed.

(** ** What every refining mixer does

    The client lemmas are proved once, against the interface: a mixer
    [mixf] of some mode type with powers [powers] that refines the
    specification. A [DriveMixer] instance provides exactly these. *)

Section MixerClient.
Context {M Mode : Type} `{DriveTrain M}.
Context (mixf : Mode -> Z -> Z -> list (Cmd M)) (powers : Mode -> Z -> Z -> Q * Q).
Hypothesis mixf_refines : forall md y x,
  cmds_eqv (mixf md y x) (realize (classify y x) (fst (powers md y x)) (snd (powers md y x))).

(** The shape of the commands is fixed by the maneuver: one call per
    drive motor, left first, spinning in the maneuver's directions or
    stopping. *)
Lemma mix_heads md y x : map cmd_head (mixf md y x) = maneuver_heads (classify y x).
Proof. rewrite (cmds_eqv_heads _ _ (mixf_refines md y x)). apply realize_heads. Qed.

Lemma mix_deadband md y x :
  (-5 <= y <= 5)%Z -> (-15 <= x <= 15)%Z ->
  mixf md y x = [Stop left_drive; Stop right_drive].
Proof.
  intros Hy Hx. pose proof (mix_heads md y x) as Hh.
  rewrite (proj2 (classify_Halt_iff y x)) in Hh by auto. simpl in Hh.
  destruct (mixf md y x) as [|c1 [|c2 [|]]]; try discriminate.
  destruct c1, c2; simpl in Hh; try discriminate. by injection Hh as -> ->.
Qed.

(** Every call of the mixer addresses a drive motor. *)
Lemma mix_only_drive md y x :
  Forall (fun c => cmd_motor c = Some left_drive \/ cmd_motor c = Some right_drive) (mixf md y x).
Proof.
  pose proof (mix_heads md y x) as Hh. unfold maneuver_heads in Hh.
  destruct (directions _) as [[]|];
    destruct (mixf md y x) as [|c1 [|c2 [|]]]; try discriminate;
    destruct c1, c2; simpl in Hh; try discriminate; injection Hh; intros; subst;
    repeat (constructor; [simpl; auto|]); constructor.
Qed.
End MixerClient.
