(* ===== verification/MediumEric.v ===== *)
(** * Robot 1: [src/mediumEricForTheWin/src/main.py]

    Module [MediumEric] models the whole program: its seven motors
    ([Motor], lines 11-19), the preset table [PRESETS] (line 24), the
    global [precise] flag (line 27, record [Globals]), the functions
    [toggle_precise], [recalibrate], [control_motor], [move_arm_to],
    [print_position] (lines 30-57), one iteration of [drive_task]'s loop
    ([remap], [drive_cmds], [drive_iter], lines 61-123), the set-up
    statements of the script ([setup_cmds], lines 129-140) and its callback
    table ([bindings], lines 143-173). The session ([exec_event],
    [reachable]) interleaves loop iterations, button edges and motor moves.

    The theorems show that the drive mixer refines the contract of
    [Mixer.classify], [Mixer.realize] and [Mixer.spec_powers] with robot
    1's profile; its deadband, straight-line, backward-halving and
    rotation behaviour and the bounds of its powers;
    that [toggle_precise] flips only [precise] (and prints the arm
    positions) and that [precise] is the parity of the A presses; the
    jog, preset and calibration handlers' effects and ordering; and that
    callbacks never command a drive motor. *)

From S2P Require Import Prelude Vex Controller Mixer.

Module MediumEric.

(** ** Devices and globals (lines 10-27) *)

Inductive Motor :=
| left_drive | right_drive
| claw_motor | arm_base_motor | arm_joint_motor | tray_motor | snow_motor.

#[export] Instance Motor_eq_dec : EqDecision Motor.
Proof. solve_decision. Defined.

(** [Motor(Ports.PORTn, GearSetting.RATIO_18_1, reversed)]. *)
Definition motor_port (m : Motor) : Z :=
  match m with
  | left_drive => 20 | right_drive => 19 | claw_motor => 3 | arm_base_motor => 9
  | arm_joint_motor => 8 | tray_motor => 1 | snow_motor => 18
  end.

Definition motor_reversed (m : Motor) : bool :=
  match m with
  | right_drive | claw_motor | arm_base_motor => true
  | _ => false
  end.

#[export] Instance drive_train : DriveTrain Motor :=
  {| Mixer.left_drive := left_drive; Mixer.right_drive := right_drive |}.

(** [(angle base, angle joint)] of the top and the lower dowel. *)
Definition PRESETS : list (Q * Q) :=
  [(4568 # 10, 4352 # 10); (4276 # 10, 2952 # 10 + 50)].

Record Globals := { precise : bool }.

Abbreviation W := (World Globals Motor).

(** ** Handlers (lines 29-57) *)

(** [print_position]: the debug snapshot of the two arm joints. *)
Definition print_position : PyM W unit :=
  issue ClearScreen ;;
  issue (SetCursor 0 0) ;;
  b <- read_position arm_base_motor ;;
  issue (Print (TNum "BASE: " b)) ;;
  issue NextRow ;;
  j <- read_position arm_joint_motor ;;
  issue (Print (TNum "MID:  " j)).

(** [precise = (False if precise else True)], then the snapshot. *)
Definition toggle_precise : PyM W unit :=
  g <- get_glob ;;
  set_glob {| precise := if precise g then false else true |} ;;
  print_position.

Definition recalibrate : PyM W unit :=
  issue (ResetPosition arm_base_motor) ;;
  issue (ResetPosition arm_joint_motor).

(** [motor.spin(FORWARD, direction * percent)]: no unit is passed. *)
Definition control_motor (direction : Z) (motor : Motor) (percent : Z) : PyM W unit :=
  issue (Spin motor FORWARD (inject_Z (direction * percent)) None).

(** [PRESETS[i]] is evaluated once per line; the base move blocks, the
    joint move does not. *)
Definition move_arm_to (i : Z) : PyM W unit :=
  p <- py_lift (py_index PRESETS i) ;;
  issue (SpinTo arm_base_motor (fst p) DEGREES 60 RPM true) ;;
  p' <- py_lift (py_index PRESETS i) ;;
  issue (SpinTo arm_joint_motor (snd p') DEGREES 60 RPM false).

(** ** One iteration of [drive_task] (lines 61-123) *)

(** Lines 69-74: [(steer, speed)] from the joysticks and [precise]. *)
Definition remap (precise : bool) (y x : Z) : Q * Q :=
  let steer := Qabs (inject_Z x) / (if precise then 4 else 2) in
  let speed := Qabs (inject_Z y) / (if precise then 3 else 1) in
  let speed := if (y <? 0)%Z && negb precise then speed / 2 else speed in
  (steer, speed).

(** Lines 79-119: the decision tree and its motor calls. *)
Definition drive_cmds (y x : Z) (steer speed : Q) : list (Cmd Motor) :=
  if (y >? 5)%Z then
    if (x >? 5)%Z then
      [Spin left_drive FORWARD speed (Some PERCENT);
       Spin right_drive FORWARD (speed - steer) (Some PERCENT)]
    else if (x <? -5)%Z then
      [Spin left_drive FORWARD (speed - steer) (Some PERCENT);
       Spin right_drive FORWARD speed (Some PERCENT)]
    else
      [Spin left_drive FORWARD speed (Some PERCENT);
       Spin right_drive FORWARD speed (Some PERCENT)]
  else if (y <? -5)%Z then
    if (x >? 5)%Z then
      [Spin left_drive REVERSE (speed - steer) (Some PERCENT);
       Spin right_drive REVERSE speed (Some PERCENT)]
    else if (x <? -5)%Z then
      [Spin left_drive REVERSE speed (Some PERCENT);
       Spin right_drive REVERSE (speed - steer) (Some PERCENT)]
    else
      [Spin left_drive REVERSE speed (Some PERCENT);
       Spin right_drive REVERSE speed (Some PERCENT)]
  else if (x >? 15)%Z then
    [Spin left_drive FORWARD steer (Some PERCENT);
     Spin right_drive REVERSE steer (Some PERCENT)]
  else if (x <? -15)%Z then
    [Spin left_drive REVERSE steer (Some PERCENT);
     Spin right_drive FORWARD steer (Some PERCENT)]
  else
    [Stop left_drive; Stop right_drive].

Definition drive_mix (precise : bool) (y x : Z) : list (Cmd Motor) :=
  let '(steer, speed) := remap precise y x in drive_cmds y x steer speed.

(** One loop iteration with joystick samples [axis3 = y], [axis1 = x]. *)
Definition drive_iter (y x : Z) : PyM W unit :=
  g <- get_glob ;;
  issue_all (drive_mix (precise g) y x) ;;
  issue (Sleep 10).

(** ** The script: set-up and callback table (lines 125-173) *)

Definition setup_cmds : list (Cmd Motor) :=
  [SetStopping claw_motor HOLD;
   SetStopping left_drive BRAKE; SetStopping right_drive BRAKE;
   SetStopping arm_base_motor HOLD; SetStopping arm_joint_motor HOLD;
   SetStopping snow_motor HOLD].

(** A registered callback with its bound arguments. *)
Inductive Handler :=
| HTogglePrecise
| HRecalibrate
| HMoveArmTo (i : Z)
| HControlMotor (direction : Z) (motor : Motor) (percent : Z).

Definition run_handler (h : Handler) : PyM W unit :=
  match h with
  | HTogglePrecise => toggle_precise
  | HRecalibrate => recalibrate
  | HMoveArmTo i => move_arm_to i
  | HControlMotor d m p => control_motor d m p
  end.

Definition jog (b1 b2 : Button) (m : Motor) (pct : Z) : list (Binding Handler) :=
  [mkBinding b1 Pressed (HControlMotor 1 m pct);
   mkBinding b1 Released (HControlMotor 0 m pct);
   mkBinding b2 Pressed (HControlMotor (-1) m pct);
   mkBinding b2 Released (HControlMotor 0 m pct)].

Definition bindings : list (Binding Handler) :=
  [mkBinding ButtonA Pressed HTogglePrecise;
   mkBinding ButtonB Pressed HRecalibrate;
   mkBinding ButtonX Pressed (HMoveArmTo 0);
   mkBinding ButtonY Pressed (HMoveArmTo 1)]
  ++ jog ButtonL1 ButtonL2 arm_base_motor 60
  ++ jog ButtonR1 ButtonR2 arm_joint_motor 60
  ++ jog ButtonUp ButtonDown claw_motor 60
  ++ jog ButtonLeft ButtonRight snow_motor 50.

(** ** The session *)

Definition boot_world : W :=
  {| glob := {| precise := false |}; motors := fun _ => motor_init; log := [] |}.

(** The world once the script has run (the drive thread has not run yet). *)
Definition init_world : W := py_exec (issue_all setup_cmds) boot_world.

Inductive Event :=
| ETick (y x : Z)
| EButton (b : Button) (e : Edge)
| EMove (m : Motor) (p : Q)
| EArrive (m : Motor).

Definition exec_event (ev : Event) (w : W) : W :=
  match ev with
  | ETick y x => py_exec (drive_iter y x) w
  | EButton b e => dispatch run_handler bindings b e w
  | EMove m p => env_move m p w
  | EArrive m => env_arrive m w
  end.

Definition valid_event (ev : Event) : Prop :=
  match ev with
  | ETick y x => (-100 <= y <= 100)%Z /\ (-100 <= x <= 100)%Z
  | _ => True
  end.

Inductive reachable : W -> Prop :=
| reach_init : reachable init_world
| reach_step w ev : reachable w -> valid_event ev -> reachable (exec_event ev w).

Definition run_events (evs : list Event) (w : W) : W :=
  fold_left (fun w ev => exec_event ev w) evs w.

(** ** Definitions the statements below use

    Predicates, measures and reference functions in terms of which the
    theorems below are stated. *)

(** Spec 4.1 steps 1 and 5 for robot 1: [steer = |x| / 2] ([/ 4] in
    precise mode), [speed = |y|] ([/ 3] in precise mode), halved backwards
    outside precise mode. *)
Definition spec_steer (p : bool) (x : Z) : Q :=
  inject_Z (Z.abs x) * (if p then 1 # 4 else 1 # 2).

Definition spec_speed (p : bool) (y : Z) : Q :=
  inject_Z (Z.abs y) * (if p then 1 # 3 else 1) * (if (y <? 0)%Z && negb p then 1 # 2 else 1).

Definition spec_mix_powers (p : bool) (y x : Z) : Q * Q :=
  spec_powers InnerDrop (spec_speed p y) (spec_steer p x) (spec_steer p x) (classify y x).

(** The motors a handler may command. *)
Definition handler_motors (h : Handler) : list Motor :=
  match h with
  | HTogglePrecise => []
  | HRecalibrate | HMoveArmTo _ => [arm_base_motor; arm_joint_motor]
  | HControlMotor _ m _ => [m]
  end.

(** The brake type of each motor after the set-up lines 129-140. *)
Definition configured_brake (m : Motor) : BrakeType :=
  match m with
  | left_drive | right_drive => BRAKE
  | claw_motor | arm_base_motor | arm_joint_motor | snow_motor => HOLD
  | tray_motor => COAST
  end.

(** The lines [print_position] writes for the arm positions of [w]. *)
Definition snapshot (w : W) : list (Cmd Motor) :=
  [ClearScreen; SetCursor 0 0; Print (TNum "BASE: " (position (motors w arm_base_motor)));
   NextRow; Print (TNum "MID:  " (position (motors w arm_joint_motor)))].

Definition is_A_press (ev : Event) : bool :=
  match ev with EButton ButtonA Pressed => true | _ => false end.

Definition presses (b : Button) (evs : list Event) : nat :=
  List.length (List.filter (fun ev => match ev with
                                 | EButton b' Pressed => bool_decide (b' = b)
                                 | _ => false end) evs).

(** ** The drive mixer refines the specification *)

Lemma remap_spec p y x :
  fst (remap p y x) == spec_steer p x /\ snd (remap p y x) == spec_speed p y.
Proof.
  unfold remap, spec_steer, spec_speed.
  destruct p, (y <? 0)%Z; cbn [fst snd andb negb]; rewrite !Qabs_inject; split; field.
Qed.

Lemma drive_mix_realize p y x :
  cmds_eqv (drive_mix p y x)
    (realize (classify y x) (fst (spec_mix_powers p y x)) (snd (spec_mix_powers p y x))).
Proof.
  unfold drive_mix, spec_mix_powers. destruct (remap_spec p y x) as [Hst Hsp].
  destruct (remap p y x) as [st sp]; simpl in Hst, Hsp.
  unfold drive_cmds, classify, spec_powers, realize; zcase; try (exfalso; lia); simpl;
    repeat constructor; simpl; rewrite ?Hst, ?Hsp; reflexivity.
Qed.

Lemma drive_iter_exec w y x :
  py_exec (drive_iter y x) w =
  apply_cmd (Sleep 10) (py_exec (issue_all (drive_mix (precise (glob w)) y x)) w).
Proof. unfold drive_iter, py_exec, py_bind. simpl. by rewrite issue_all_run. Qed.

Lemma drive_iter_log w y x :
  log (py_exec (drive_iter y x) w) = log w ++ drive_mix (precise (glob w)) y x ++ [Sleep 10].
Proof. rewrite drive_iter_exec. simpl. rewrite log_issue_all. by rewrite <- app_assoc. Qed.

(** C3: one iteration of [drive_task] issues the commands of the
    abstract mixer specification with robot 1's profile, read from the
    current [precise] flag, followed by [sleep(10)]. *)
Theorem drive_iter_refines (w : W) (y x : Z) :
  exists cs,
    log (py_exec (drive_iter y x) w) = log w ++ cs ++ [Sleep 10] /\
    cmds_eqv cs (realize (classify y x)
                   (fst (spec_mix_powers (precise (glob w)) y x))
                   (snd (spec_mix_powers (precise (glob w)) y x))).
Proof. eexists. split; [apply drive_iter_log | apply drive_mix_realize]. Qed.

(** C6: a straight translation ([|x| <= 5], [|y| > 5]) drives both
    wheels in the same direction at the same power [speed], which is
    [|y|] (a third of it in precise mode), halved backwards outside
    precise mode. *)
Theorem drive_straight_equal_power (p : bool) (y x : Z) :
  (y > 5 \/ y < -5)%Z -> (-5 <= x <= 5)%Z ->
  exists d sp,
    drive_mix p y x = [Spin left_drive d sp (Some PERCENT); Spin right_drive d sp (Some PERCENT)] /\
    d = (if (y >? 5)%Z then FORWARD else REVERSE) /\
    sp == spec_speed p y.
Proof.
  intros Hy Hx. destruct (remap_spec p y x) as [_ Hsp].
  unfold drive_mix. destruct (remap p y x) as [st sp]; simpl in Hsp.
  exists (if (y >? 5)%Z then FORWARD else REVERSE), sp.
  unfold drive_cmds. zcase; try lia; auto.
Qed.

(** ** Handlers' frames *)

Lemma drive_mix_not_set_stopping p y x c :
  In c (drive_mix p y x) -> is_set_stopping c = false.
Proof.
  unfold drive_mix. destruct (remap p y x) as [st sp].
  unfold drive_cmds. zcase; simpl; intuition (subst; reflexivity).
Qed.

Lemma handler_brakes_kept h : preserves brakes_kept (run_handler h).
Proof.
  destruct h; simpl;
    unfold toggle_precise, print_position, recalibrate, move_arm_to, control_motor;
    vex_preserves_tac; try (apply brakes_kept_apply; reflexivity); intro; reflexivity.
Qed.

Lemma handler_motor_kept h m : ~ In m (handler_motors h) -> preserves (motor_kept m) (run_handler h).
Proof.
  intros Hm. destruct h; simpl in *;
    unfold toggle_precise, print_position, recalibrate, move_arm_to, control_motor;
    vex_preserves_tac; try done; apply motor_kept_apply; simpl; intros [= E]; subst; tauto.
Qed.

Lemma bindings_handler_motors b e h :
  In h (handlers_for bindings b e) -> Forall (fun m => m <> left_drive /\ m <> right_drive) (handler_motors h).
Proof.
  intros Hin. apply handlers_for_In in Hin.
  repeat (destruct Hin as [Hin|Hin]; [injection Hin as <- <- <-; repeat constructor; discriminate|]).
  destruct Hin.
Qed.

Lemma tick_brakes_kept y x : preserves brakes_kept (drive_iter y x).
Proof.
  unfold drive_iter. vex_preserves_tac; apply brakes_kept_apply;
    [by eapply drive_mix_not_set_stopping | done].
Qed.

Lemma exec_event_brakes_kept ev w : brakes_kept w (exec_event ev w).
Proof.
  destruct ev; simpl.
  - apply tick_brakes_kept.
  - apply dispatch_rel; [typeclasses eauto|]. intros h s _. apply handler_brakes_kept.
  - intros m'. unfold env_move, fupd; simpl. by case_decide; subst.
  - intros m'. unfold env_arrive. destruct (act _); try done; unfold fupd; simpl; by case_decide; subst.
Qed.

Lemma reachable_configured_brakes (w : W) :
  reachable w -> forall m, brake (motors w m) = configured_brake m.
Proof.
  induction 1 as [|w ev _ IH _].
  - intros []; reflexivity.
  - intros m. rewrite (exec_event_brakes_kept ev w m). apply IH.
Qed.

(** C16: in every reachable state the drive motors brake when stopped,
    the claw, the arm joints and the scoop hold, and the tray coasts: the
    set-up's brake types, which nothing reconfigures. *)
Theorem reachable_brakes (w : W) :
  reachable w ->
  brake (motors w left_drive) = BRAKE /\ brake (motors w right_drive) = BRAKE /\
  brake (motors w claw_motor) = HOLD /\ brake (motors w arm_base_motor) = HOLD /\
  brake (motors w arm_joint_motor) = HOLD /\ brake (motors w snow_motor) = HOLD /\
  brake (motors w tray_motor) = COAST.
Proof. intros Hr. pose proof (reachable_configured_brakes w Hr) as H. by rewrite !H. Qed.

(** C5: in every reachable state, a loop iteration with both sticks in
    the deadband ([|y| <= 5], [|x| <= 15]) stops both drive motors,
    which then brake, and sleeps 10 ms. *)
Theorem drive_deadband_brakes (w : W) (y x : Z) :
  reachable w -> (-5 <= y <= 5)%Z -> (-15 <= x <= 15)%Z ->
  log (py_exec (drive_iter y x) w) = log w ++ [Stop left_drive; Stop right_drive; Sleep 10] /\
  act (motors (py_exec (drive_iter y x) w) left_drive) = Stopped BRAKE /\
  act (motors (py_exec (drive_iter y x) w) right_drive) = Stopped BRAKE.
Proof.
  intros Hr Hy Hx. pose proof (reachable_configured_brakes w Hr) as Hb.
  pose proof (mix_deadband drive_mix spec_mix_powers drive_mix_realize (precise (glob w)) y x Hy Hx) as Hmix. rewrite drive_iter_log, drive_iter_exec, Hmix. split; [done|].
  simpl. unfold fupd. simpl. rewrite (Hb left_drive), (Hb right_drive). done.
Qed.

(** With the sticks in range, [steer] is in [0, 50] and [speed] in [0, 100]. *)
Lemma remap_ranges p y x :
  (-100 <= y <= 100)%Z -> (-100 <= x <= 100)%Z ->
  0 <= fst (remap p y x) <= 50 /\ 0 <= snd (remap p y x) <= 100.
Proof.
  intros Hy Hx. destruct (remap_spec p y x) as [Hst Hsp].
  assert (Hay : 0 <= inject_Z (Z.abs y) <= 100) by (rewrite <- Qabs_inject; auto with teleop).
  assert (Hax : 0 <= inject_Z (Z.abs x) <= 100) by (rewrite <- Qabs_inject; auto with teleop).
  rewrite Hst, Hsp. unfold spec_steer, spec_speed. split; [destruct p; lra|].
  destruct p, (y <? 0)%Z; simpl; lra.
Qed.

(** Every call of the mixer spins a drive motor in percent at a power in
    [-50, 100], or stops one. *)
Lemma drive_mix_cmds p y x c :
  (-100 <= y <= 100)%Z -> (-100 <= x <= 100)%Z -> In c (drive_mix p y x) ->
  (exists m d v, c = Spin m d v (Some PERCENT) /\ (m = left_drive \/ m = right_drive) /\
                 -50 <= v <= 100) \/
  c = Stop left_drive \/ c = Stop right_drive.
Proof.
  intros Hy Hx. destruct (remap_ranges p y x Hy Hx) as [Hst Hsp].
  unfold drive_mix. destruct (remap p y x) as [st sp]; simpl in *.
  unfold drive_cmds. zcase; simpl; intros Hc; repeat destruct Hc as [<- | Hc]; try destruct Hc;
    first [right; by auto | left; do 3 eexists; split; [reflexivity|]; split; [auto | lra]].
Qed.

(** C7: with both sticks within [-100, 100], every drive power lies in
    [-50, 100] (within the percent range of [spin]); a negative power is
    the inner wheel of an arc turning against the commanded direction. *)
Theorem drive_power_bounds (p : bool) (y x : Z) :
  (-100 <= y <= 100)%Z -> (-100 <= x <= 100)%Z ->
  Forall (fun c => match c with Spin _ _ v _ => -50 <= v <= 100 | _ => True end) (drive_mix p y x).
Proof.
  intros Hy Hx. apply List.Forall_forall. intros c Hc.
  by destruct (drive_mix_cmds p y x c Hy Hx Hc) as [(m & d & v & -> & _ & Hv) | [-> | ->]].
Qed.

(** ** Mode toggle *)

Lemma toggle_precise_run (w : W) :
  toggle_precise w =
  (inr tt, {| glob := {| precise := negb (precise (glob w)) |}; motors := motors w;
              log := log w ++ snapshot w |}).
Proof.
  unfold toggle_precise, print_position, py_bind, issue, py_modify, apply_cmd; simpl.
  rewrite <- !app_assoc. by destruct (precise (glob w)).
Qed.

(** C21: [toggle_precise] flips [precise], changes no motor, and writes
    exactly the debug snapshot of the two arm positions to the screen. *)
Theorem toggle_precise_effect (w : W) :
  precise (glob (py_exec toggle_precise w)) = negb (precise (glob w)) /\
  motors (py_exec toggle_precise w) = motors w /\
  log (py_exec toggle_precise w) = log w ++ snapshot w.
Proof. unfold py_exec. by rewrite toggle_precise_run. Qed.

Lemma handler_glob_kept h : h <> HTogglePrecise -> preserves glob_kept (run_handler h).
Proof.
  intros Hh. destruct h; [done| | |]; simpl;
    unfold recalibrate, move_arm_to, control_motor; vex_preserves_tac; done.
Qed.

Lemma toggle_bound_only_to_A b e :
  In HTogglePrecise (handlers_for bindings b e) -> b = ButtonA /\ e = Pressed.
Proof.
  intros Hin. apply handlers_for_In in Hin.
  repeat (destruct Hin as [Hin|Hin]; [injection Hin; intros; subst; try discriminate; done|]).
  destruct Hin.
Qed.

Lemma exec_event_precise ev w :
  precise (glob (exec_event ev w)) = xorb (is_A_press ev) (precise (glob w)).
Proof.
  destruct (is_A_press ev) eqn:EA.
  - destruct ev as [| [] [] | |]; try discriminate. simpl. by destruct (precise (glob w)).
  - simpl. f_equal. destruct ev as [y x|b e|m p|m]; simpl.
    + rewrite drive_iter_exec. simpl. by rewrite glob_issue_all.
    + apply (dispatch_rel run_handler glob_kept). intros h s Hin. apply handler_glob_kept.
      intros ->. destruct (toggle_bound_only_to_A b e Hin) as [-> ->]. discriminate.
    + done.
    + apply glob_env_arrive.
Qed.

(** Along any sequence of events, [precise] flips once per A press. *)
Lemma run_events_precise (evs : list Event) (w : W) :
  precise (glob (run_events evs w)) = xorb (Nat.odd (presses ButtonA evs)) (precise (glob w)).
Proof.
  induction evs as [|ev evs IH] using rev_ind; [done|].
  unfold run_events in *. rewrite fold_left_app. simpl. rewrite exec_event_precise, IH.
  unfold presses. rewrite List.filter_app, List.length_app. simpl.
  destruct ev as [| [] [] | |]; simpl; rewrite ?Nat.add_0_r; try done.
  rewrite Nat.add_1_r, Nat.odd_succ, <- Nat.negb_odd. by destruct (Nat.odd (List.length _)), (precise (glob w)).
Qed.

(** C22: after any sequence of events from the initial state, [precise]
    holds exactly when button A was pressed an odd number of times. *)
Theorem precise_parity (evs : list Event) :
  precise (glob (run_events evs init_world)) = Nat.odd (presses ButtonA evs).
Proof. rewrite run_events_precise. apply xorb_false_r. Qed.

(** ** Ownership of the motors *)

(** C18: no callback ever commands a drive motor: dispatching any button
    edge leaves both drive motors as they were. *)
Theorem callbacks_keep_drive (b : Button) (e : Edge) (w : W) :
  motors (dispatch run_handler bindings b e w) left_drive = motors w left_drive /\
  motors (dispatch run_handler bindings b e w) right_drive = motors w right_drive.
Proof.
  split; apply (dispatch_rel run_handler (motor_kept _)); intros h s Hin;
    apply handler_motor_kept; pose proof (bindings_handler_motors b e h Hin) as Hf;
    rewrite List.Forall_forall in Hf; intros Hm; apply Hf in Hm; tauto.
Qed.

(** C19: a loop iteration commands only the drive motors: every other
    motor keeps its state. *)
Theorem drive_iter_keeps_mechanisms (y x : Z) (w : W) (m : Motor) :
  m <> left_drive -> m <> right_drive ->
  motors (py_exec (drive_iter y x) w) m = motors w m.
Proof.
  intros Hl Hr. revert w. change (preserves (motor_kept m) (drive_iter y x)).
  unfold drive_iter. vex_preserves_tac; apply motor_kept_apply; [|done].
  pose proof (mix_only_drive drive_mix spec_mix_powers drive_mix_realize (precise a) y x) as Hf.
  rewrite List.Forall_forall in Hf. destruct (Hf _ H) as [E|E]; simpl in E; rewrite E; congruence.
Qed.

(** ** Jog controller *)

(** C32: every jog button spins its motor at [direction * percent]
    ([direction] = 1 or -1, in the default velocity unit: no unit is
    passed) when pressed, and at 0 when released. *)
Theorem jog_press_release (b : Button) (d : Z) (m : Motor) (pct : Z) (w : W) :
  In (mkBinding b Pressed (HControlMotor d m pct)) bindings ->
  (d = 1 \/ d = -1)%Z /\
  log (dispatch run_handler bindings b Pressed w) =
    log w ++ [Spin m FORWARD (inject_Z (d * pct)) None] /\
  log (dispatch run_handler bindings b Released w) = log w ++ [Spin m FORWARD 0 None].
Proof.
  intros Hin.
  repeat (destruct Hin as [Hin|Hin];
          [injection Hin; intros; subst; first [discriminate | split; [lia | split; reflexivity]]|]).
  destruct Hin.
Qed.

(** ** Preset mover and calibration *)

Lemma py_index_PRESETS_error i : (i < -2 \/ 2 <= i)%Z -> py_index PRESETS i = inl IndexError.
Proof. intros Hi. unfold py_index. simpl. zcase; simpl; try reflexivity; lia. Qed.

Lemma move_arm_to_run (w : W) (i : Z) (b j : Q) :
  py_index PRESETS i = inr (b, j) ->
  move_arm_to i w =
  (inr tt, apply_cmd (SpinTo arm_joint_motor j DEGREES 60 RPM false)
             (apply_cmd (SpinTo arm_base_motor b DEGREES 60 RPM true) w)).
Proof. intros H. unfold move_arm_to, py_bind, py_lift. rewrite H. reflexivity. Qed.

(** C28: for an index Python accepts ([-2 <= i < 2]), [move_arm_to]
    returns normally after issuing exactly two position moves: the base to
    the preset's first angle (blocking) and the joint to its second angle
    (non-blocking), both at 60 RPM in degrees. *)
Theorem move_arm_to_presets (w : W) (i : Z) :
  (-2 <= i < 2)%Z ->
  exists b j,
    nth (Z.to_nat (i mod 2)) PRESETS (0, 0) = (b, j) /\
    fst (move_arm_to i w) = inr tt /\
    log (py_exec (move_arm_to i) w) =
      log w ++ [SpinTo arm_base_motor b DEGREES 60 RPM true;
                SpinTo arm_joint_motor j DEGREES 60 RPM false].
Proof.
  intros Hi. assert (Hcases : (i = -2 \/ i = -1 \/ i = 0 \/ i = 1)%Z) by lia.
  destruct (nth (Z.to_nat (i mod 2)) PRESETS (0, 0)) as [b j] eqn:E.
  exists b, j. split; [done|].
  assert (Hix : py_index PRESETS i = inr (b, j)) by
    (destruct Hcases as [-> | [-> | [-> | ->]]]; rewrite <- E; reflexivity).
  unfold py_exec. rewrite (move_arm_to_run w i b j Hix). simpl. by rewrite <- app_assoc.
Qed.

(** C29: any other index raises [IndexError] before a motor is
    commanded: the world is unchanged. *)
Theorem move_arm_to_index_error (w : W) (i : Z) :
  (i < -2 \/ 2 <= i)%Z -> move_arm_to i w = (inl IndexError, w).
Proof.
  intros Hi. unfold move_arm_to, py_bind, py_lift. by rewrite py_index_PRESETS_error.
Qed.

(** C30: the two joints do not move together: the joint's move is
    issued only once the base has reached its target, and the call
    returns while the joint is still moving to its own. *)
Theorem move_arm_to_sequential (w : W) (i : Z) (b j : Q) :
  py_index PRESETS i = inr (b, j) ->
  position (motors (apply_cmd (SpinTo arm_base_motor b DEGREES 60 RPM true) w) arm_base_motor) == b /\
  py_exec (move_arm_to i) w =
    apply_cmd (SpinTo arm_joint_motor j DEGREES 60 RPM false)
      (apply_cmd (SpinTo arm_base_motor b DEGREES 60 RPM true) w) /\
  act (motors (py_exec (move_arm_to i) w) arm_joint_motor) = MovingTo j 60.
Proof.
  intros Hix. unfold py_exec. rewrite (move_arm_to_run w i b j Hix). split; [|split; [done|]].
  - rewrite motors_apply_cmd_self by done. apply position_spin_to_wait.
  - cbn [snd]. rewrite motors_apply_cmd_self by done. done.
Qed.

Lemma recalibrate_run (w : W) :
  recalibrate w =
  (inr tt, apply_cmd (ResetPosition arm_joint_motor) (apply_cmd (ResetPosition arm_base_motor) w)).
Proof. reflexivity. Qed.

(** C31: presets are relative to the calibration pose: after
    [recalibrate] and [move_arm_to i], once the joint arrives, each joint
    stands at its physical angle at calibration plus the preset's angle,
    whatever the position reference was before. *)
Theorem calibrated_preset_pose (w : W) (i : Z) (b j : Q) :
  py_index PRESETS i = inr (b, j) ->
  let w' := env_arrive arm_joint_motor (py_exec (recalibrate ;; move_arm_to i) w) in
  phys (motors w' arm_base_motor) == phys (motors w arm_base_motor) + b /\
  phys (motors w' arm_joint_motor) == phys (motors w arm_joint_motor) + j.
Proof.
  intros Hix w'. subst w'. unfold py_exec, py_bind. rewrite recalibrate_run.
  rewrite (move_arm_to_run _ i b j Hix). split; reflexivity.
Qed.

(** ** Witnesses: the theorems at concrete inputs *)

Lemma drive_straight_equal_power_witness :
  exists d sp,
    drive_mix false (-40) 3 = [Spin left_drive d sp (Some PERCENT); Spin right_drive d sp (Some PERCENT)] /\
    d = (if (-40 >? 5)%Z then FORWARD else REVERSE) /\ sp == spec_speed false (-40).
Proof. apply (drive_straight_equal_power false (-40) 3); lia. Defined.

Lemma reachable_brakes_witness :
  let w := exec_event (ETick 50 0) init_world in
  brake (motors w left_drive) = BRAKE /\ brake (motors w right_drive) = BRAKE /\
  brake (motors w claw_motor) = HOLD /\ brake (motors w arm_base_motor) = HOLD /\
  brake (motors w arm_joint_motor) = HOLD /\ brake (motors w snow_motor) = HOLD /\
  brake (motors w tray_motor) = COAST.
Proof. apply reachable_brakes. apply reach_step; [apply reach_init | simpl; lia]. Defined.

Lemma drive_deadband_brakes_witness :
  let w := exec_event (EButton ButtonA Pressed) init_world in
  log (py_exec (drive_iter 3 (-12)) w) = log w ++ [Stop left_drive; Stop right_drive; Sleep 10] /\
  act (motors (py_exec (drive_iter 3 (-12)) w) left_drive) = Stopped BRAKE /\
  act (motors (py_exec (drive_iter 3 (-12)) w) right_drive) = Stopped BRAKE.
Proof.
  apply (drive_deadband_brakes _ 3 (-12)); [|lia|lia].
  apply reach_step; [apply reach_init|exact I].
Defined.

Lemma drive_power_bounds_witness :
  Forall (fun c => match c with Spin _ _ v _ => -50 <= v <= 100 | _ => True end)
    (drive_mix false (-6) 100).
Proof. apply (drive_power_bounds false (-6) 100); lia. Defined.

Lemma jog_press_release_witness :
  (-1 = 1 \/ -1 = -1)%Z /\
  log (dispatch run_handler bindings ButtonRight Pressed boot_world) =
    log boot_world ++ [Spin snow_motor FORWARD (inject_Z (-1 * 50)) None] /\
  log (dispatch run_handler bindings ButtonRight Released boot_world) =
    log boot_world ++ [Spin snow_motor FORWARD 0 None].
Proof. apply (jog_press_release ButtonRight (-1) snow_motor 50 boot_world). simpl. tauto. Defined.

Lemma drive_iter_keeps_mechanisms_witness :
  motors (py_exec (drive_iter 80 (-30)) init_world) claw_motor = motors init_world claw_motor.
Proof. apply drive_iter_keeps_mechanisms; discriminate. Defined.

Lemma move_arm_to_presets_witness :
  exists b j,
    nth (Z.to_nat ((-1) mod 2)) PRESETS (0, 0) = (b, j) /\
    fst (move_arm_to (-1) init_world) = inr tt /\
    log (py_exec (move_arm_to (-1)) init_world) =
      log init_world ++ [SpinTo arm_base_motor b DEGREES 60 RPM true;
                         SpinTo arm_joint_motor j DEGREES 60 RPM false].
Proof. apply move_arm_to_presets; lia. Defined.

Lemma move_arm_to_index_error_witness : move_arm_to 2 init_world = (inl IndexError, init_world).
Proof. apply move_arm_to_index_error; lia. Defined.

Lemma move_arm_to_sequential_witness :
  position (motors (apply_cmd (SpinTo arm_base_motor (4568 # 10) DEGREES 60 RPM true) init_world)
              arm_base_motor) == 4568 # 10 /\
  py_exec (move_arm_to 0) init_world =
    apply_cmd (SpinTo arm_joint_motor (4352 # 10) DEGREES 60 RPM false)
      (apply_cmd (SpinTo arm_base_motor (4568 # 10) DEGREES 60 RPM true) init_world) /\
  act (motors (py_exec (move_arm_to 0) init_world) arm_joint_motor) = MovingTo (4352 # 10) 60.
Proof. apply move_arm_to_sequential. reflexivity. Defined.

Lemma calibrated_preset_pose_witness :
  let w' := env_arrive arm_joint_motor (py_exec (recalibrate ;; move_arm_to 1) init_world) in
  phys (motors w' arm_base_motor) == phys (motors init_world arm_base_motor) + (4276 # 10) /\
  phys (motors w' arm_joint_motor) == phys (motors init_world arm_joint_motor) + (2952 # 10 + 50).
Proof. apply calibrated_preset_pose. reflexivity. Defined.

(** ** Robot 1's mixer implements the interface *)

#[export] Instance drive_mixer : DriveMixer Motor bool :=
  {| mix := drive_mix; mix_powers := spec_mix_powers; mix_refines := drive_mix_realize |}.

End MediumEric.
