(* ===== verification/MediumEricTask.v ===== *)
(** * Robot 1: the drive thread, the sampled buttons and the motors' states

    Module [MediumEricTask] puts the operations of [MediumEric] together
    the way the program runs them:

    - [drive_loop]: the first [n] iterations of [drive_task]'s
      [while True:] loop (lines 61-66 and 123), with the joystick samples
      of each iteration; [drive_step]: one iteration as a step of the
      thread;
    - [sampled_events]: the button events the input sampler reports for
      a sequence of button levels, dispatched to the callback table;
    - [act_wf]: the activities each motor can be in under this program.

    The theorems show that the drive thread never exits and issues, per
    iteration, the mixer's commands followed by its [sleep(10)]; that,
    whatever callbacks interleave, the drive motors receive exactly the
    mixer's calls of each iteration under the current [precise]; that
    [precise] flips once per press of A however long A is held; and that
    every reachable state is well formed: each motor is idle or doing
    what the program commands it to, and the tray motor is never
    commanded. *)

From S2P Require Import Prelude Traces Vex Controller Mixer MediumEric.

Module MediumEricTask.
Import MediumEric.

(** ** The loop of [drive_task] *)

(** The first [n] iterations of [while True:]; iteration [i] reads the
    samples [inp i] = ([axis3], [axis1]). *)
Definition drive_loop (inp : nat -> Z * Z) (n : nat) : PyM W unit :=
  py_loop (fun i _ => drive_iter (fst (inp i)) (snd (inp i))) n tt.

(** One iteration of the loop, from samples in the axes' range. *)
Definition drive_step (w w' : W) : Prop :=
  exists y x, (-100 <= y <= 100)%Z /\ (-100 <= x <= 100)%Z /\ drive_iter y x w = (inr tt, w').

(** The calls of [n] iterations with [precise] at [p]. *)
Definition loop_cmds (p : bool) (inp : nat -> Z * Z) (n : nat) : list (Cmd Motor) :=
  flat_map (fun i => drive_mix p (fst (inp i)) (snd (inp i)) ++ [Sleep 10]) (seq 0 n).

(** ** Sampled buttons *)

(** The edges the sampler reports, as events of the session. *)
Definition sampled_events (prev : Levels) (samples : list Levels) : list Event :=
  map (fun be => EButton (fst be) (snd be)) (sampler prev samples).

(** ** Well-formed motor states *)

(** The power of the jog buttons bound to a motor (lines 155-173). *)
Definition jog_power (m : Motor) : option Z :=
  match m with
  | arm_base_motor | arm_joint_motor | claw_motor => Some 60%Z
  | snow_motor => Some 50%Z
  | _ => None
  end.

(** What each motor can be doing: the drive motors spin in percent
    within [-100, 100] or stop with [BRAKE]; a jogged motor spins at its
    jog power, at 0 or at minus its jog power, with no unit, or holds;
    only the arm joint moves to a target without blocking, a preset's
    second angle at 60; the tray motor is never commanded. *)
Definition act_wf (m : Motor) (a : Activity) : Prop :=
  match m, a with
  | _, Idle => True
  | tray_motor, _ => False
  | left_drive, Stopped b | right_drive, Stopped b => b = BRAKE
  | left_drive, Spinning v u | right_drive, Spinning v u => u = Some PERCENT /\ -100 <= v <= 100
  | arm_joint_motor, MovingTo t r => In t (map snd PRESETS) /\ r == 60
  | _, MovingTo _ _ => False
  | _, Stopped b => b = HOLD
  | _, Spinning v u =>
      u = None /\ exists pct, jog_power m = Some pct /\
                   (v == inject_Z pct \/ v == 0 \/ v == - inject_Z pct)
  end.

(** The brake types of the set-up and well-formed activities. *)
Definition wf_state (w : W) : Prop :=
  (forall m, brake (motors w m) = configured_brake m) /\ (forall m, act_wf m (act (motors w m))).

Definition wf_rel (w w' : W) : Prop := wf_state w -> wf_state w'.

#[export] Instance wf_rel_preorder : PreOrder wf_rel.
Proof. split; [intros w H; exact H | intros w1 w2 w3 H1 H2 H; auto]. Qed.

(** A call keeps the activity of the motor it addresses well formed,
    when that motor has its configured brake type. *)
Definition cmd_wf (c : Cmd Motor) : Prop :=
  forall m, cmd_motor c = Some m -> forall ms, brake ms = configured_brake m ->
  act_wf m (act ms) -> act_wf m (act (motor_step c ms)).

(** A call that does not address the tray motor. *)
Definition no_tray (c : Cmd Motor) : Prop := cmd_motor c <> Some tray_motor.

(** A call that addresses no motor but the claw, the arm joints and the
    scoop: what the callbacks issue. *)
Definition mech_cmd (c : Cmd Motor) : Prop :=
  forall m, cmd_motor c = Some m -> In m [claw_motor; arm_base_motor; arm_joint_motor; snow_motor].

(** A call to a drive motor. *)
Definition is_drive_cmd (c : Cmd Motor) : bool :=
  match cmd_motor c with Some left_drive | Some right_drive => true | _ => false end.

(** The drive calls a sequence of events is to produce: each tick's
    mixer calls for its samples, with [precise] as the presses of A
    before the tick left it. *)
Fixpoint expected_drive (p : bool) (evs : list Event) : list (Cmd Motor) :=
  match evs with
  | [] => []
  | ETick y x :: rest => drive_mix p y x ++ expected_drive p rest
  | ev :: rest => expected_drive (xorb (is_A_press ev) p) rest
  end.

(** ** Lemmas *)

Lemma drive_iter_ok y x (w : W) : drive_iter y x w = (inr tt, py_exec (drive_iter y x) w).
Proof. unfold drive_iter, py_exec, py_bind. simpl. by rewrite issue_all_run. Qed.

Lemma drive_iter_glob y x (w : W) : glob (py_exec (drive_iter y x) w) = glob w.
Proof. rewrite drive_iter_exec. simpl. apply glob_issue_all. Qed.

Lemma loop_cmds_S p inp n :
  loop_cmds p inp (S n) =
  drive_mix p (fst (inp 0%nat)) (snd (inp 0%nat)) ++ [Sleep 10] ++ loop_cmds p (fun i => inp (S i)) n.
Proof.
  unfold loop_cmds. simpl. rewrite <- app_assoc, <- seq_shift. f_equal. f_equal.
  rewrite !flat_map_concat_map, map_map. reflexivity.
Qed.

Lemma presses_sampled b prev samples :
  presses b (sampled_events prev samples) = press_count b (sampler prev samples).
Proof.
  unfold presses, press_count, sampled_events. generalize (sampler prev samples) as es.
  induction es as [|[b' e] es IH]; simpl; [done|].
  destruct e; repeat case_bool_decide; simplify_eq; simpl; by rewrite IH.
Qed.

Lemma wf_apply c w : is_set_stopping c = false -> cmd_wf c -> wf_rel w (apply_cmd c w).
Proof.
  intros Hs Hc [Hb Ha]. split.
  - intros m. rewrite (brakes_kept_apply c w Hs m). apply Hb.
  - intros m. destruct (decide (cmd_motor c = Some m)) as [E|E].
    + rewrite motors_apply_cmd_self by done. apply Hc; auto.
    + rewrite motors_apply_cmd_other by done. apply Ha.
Qed.

(** A call that addresses no motor. *)
Lemma cmd_wf_none c : cmd_motor c = None -> cmd_wf c.
Proof. intros E m Em. congruence. Qed.

Lemma cmd_wf_jog d m pct :
  jog_power m = Some pct -> (d = 1 \/ d = 0 \/ d = -1)%Z ->
  cmd_wf (Spin m FORWARD (inject_Z (d * pct)) None).
Proof.
  intros Hp Hd m' [= <-] ms _ _. simpl.
  destruct m; try discriminate; (split; [done|]); exists pct; (split; [done|]);
    (destruct Hd as [-> | [-> | ->]]; [left | right; left | right; right]);
    unfold Qeq, inject_Z, Qopp; simpl; lia.
Qed.

Lemma cmd_wf_drive c :
  ((exists m d v, c = Spin m d v (Some PERCENT) /\ (m = left_drive \/ m = right_drive) /\
                  -50 <= v <= 100) \/ c = Stop left_drive \/ c = Stop right_drive) ->
  is_set_stopping c = false /\ cmd_wf c.
Proof.
  intros [(m & d & v & -> & Hm & Hv) | [-> | ->]]; (split; [done|]);
    intros m' [= <-] ms Hb _; simpl; rewrite ?Hb; [|done..].
  destruct Hm as [-> | ->], d; simpl; (split; [done|]); lra.
Qed.

Lemma toggle_precise_wf : preserves wf_rel toggle_precise.
Proof.
  unfold toggle_precise, print_position. vex_preserves_tac;
    first [intros H; exact H | apply wf_apply; [done | by apply cmd_wf_none]].
Qed.

Lemma recalibrate_wf : preserves wf_rel recalibrate.
Proof.
  unfold recalibrate. vex_preserves_tac; apply wf_apply; [done| |done|];
    intros m _ ms _ Ha; exact Ha.
Qed.

Lemma move_arm_to_wf i : preserves wf_rel (move_arm_to i).
Proof.
  intros w. destruct (py_index PRESETS i) as [e|[b j]] eqn:E.
  - unfold py_exec, move_arm_to, py_bind, py_lift. rewrite E. intros H; exact H.
  - assert (Hj : In j (map snd PRESETS))
      by (apply in_map_iff; exists (b, j); split; [done | by eapply py_index_In]).
    unfold py_exec. rewrite (move_arm_to_run w i b j E). simpl.
    etransitivity; apply wf_apply; try done; intros m [= <-] ms Hb _; simpl in *; [by rewrite Hb|].
    split; [exact Hj | reflexivity].
Qed.

Lemma control_motor_wf d m pct :
  jog_power m = Some pct -> (d = 1 \/ d = 0 \/ d = -1)%Z -> preserves wf_rel (control_motor d m pct).
Proof. intros Hp Hd. unfold control_motor. vex_preserves_tac. apply wf_apply; [done|]. by apply cmd_wf_jog. Qed.

(** Every callback of the table keeps the state well formed. *)
Lemma bindings_wf b e h : In h (handlers_for bindings b e) -> preserves wf_rel (run_handler h).
Proof.
  intros Hin. apply handlers_for_In in Hin.
  repeat (destruct Hin as [Hin|Hin];
          [injection Hin as <- <- <-;
           first [apply toggle_precise_wf | apply recalibrate_wf | apply move_arm_to_wf
                 | apply control_motor_wf; [reflexivity | lia]] |]).
  destruct Hin.
Qed.

Lemma drive_iter_wf y x :
  (-100 <= y <= 100)%Z -> (-100 <= x <= 100)%Z -> preserves wf_rel (drive_iter y x).
Proof.
  intros Hy Hx. unfold drive_iter. vex_preserves_tac.
  - destruct (cmd_wf_drive _ (drive_mix_cmds _ y x _ Hy Hx H)) as [Hs Hc]. by apply wf_apply.
  - apply wf_apply; [done | by apply cmd_wf_none].
Qed.

Lemma exec_event_wf ev w : valid_event ev -> wf_rel w (exec_event ev w).
Proof.
  intros Hv. destruct ev as [y x|b e|m p|m]; simpl in *.
  - destruct Hv. by apply drive_iter_wf.
  - apply (dispatch_rel run_handler wf_rel). intros h s Hin. by apply (bindings_wf b e).
  - intros [Hb Ha]. split; intros m'; unfold env_move, fupd; simpl; case_decide; subst; simpl; auto.
  - unfold env_arrive. destruct (act (motors w m)) eqn:E; try (intros H; exact H).
    intros [Hb Ha]. split; intros m'; unfold fupd; simpl; case_decide; subst; simpl; auto.
    match goal with |- act_wf ?k _ =>
      specialize (Ha k); rewrite E in Ha; rewrite Hb; destruct k; simpl in *; tauto end.
Qed.

Lemma reachable_wf_state w : reachable w -> wf_state w.
Proof.
  induction 1 as [|w ev _ IH Hv].
  - split; intros []; vm_compute; first [reflexivity | exact I].
  - by apply exec_event_wf.
Qed.

Lemma bindings_mech b e h :
  In h (handlers_for bindings b e) -> preserves (log_ext mech_cmd) (run_handler h).
Proof.
  intros Hin. apply handlers_for_In in Hin.
  repeat (destruct Hin as [Hin|Hin];
          [injection Hin as <- <- <-; simpl;
           unfold toggle_precise, print_position, recalibrate, move_arm_to, control_motor;
           vex_preserves_tac;
           first [exists []; split; [by rewrite app_nil_r | constructor]
                 | apply log_ext_apply; intros ? [= <-]; simpl; tauto
                 | apply log_ext_apply; intros ? [=]] |]).
  destruct Hin.
Qed.

Lemma dispatch_mech b e w : log_ext mech_cmd w (dispatch run_handler bindings b e w).
Proof. apply (dispatch_rel run_handler (log_ext mech_cmd)). intros h s Hin. by apply (bindings_mech b e). Qed.

Lemma exec_event_no_tray ev w : valid_event ev -> log_ext no_tray w (exec_event ev w).
Proof.
  intros Hv. destruct ev as [y x|b e|m p|m]; simpl in *.
  - destruct Hv as [Hy Hx]. revert w. change (preserves (log_ext no_tray) (drive_iter y x)).
    unfold drive_iter. vex_preserves_tac; apply log_ext_apply; [|unfold no_tray; simpl; congruence].
    destruct (drive_mix_cmds _ y x _ Hy Hx H) as [(m & d & v & -> & [-> | ->] & _) | [-> | ->]];
      unfold no_tray; simpl; congruence.
  - apply (log_ext_mono mech_cmd); [|apply dispatch_mech].
    intros c Hc E. apply Hc in E. simpl in E. intuition discriminate.
  - exists []. split; [by rewrite log_env_move, app_nil_r | constructor].
  - exists []. split; [by rewrite log_env_arrive, app_nil_r | constructor].
Qed.

Lemma exec_event_drive_log ev w :
  List.filter is_drive_cmd (log (exec_event ev w)) =
  List.filter is_drive_cmd (log w) ++
  match ev with ETick y x => drive_mix (precise (glob w)) y x | _ => [] end.
Proof.
  destruct ev as [y x|b e|m p|m]; cbn [exec_event].
  - rewrite drive_iter_log, !List.filter_app, (filter_Forall_true is_drive_cmd (drive_mix _ y x)).
    + simpl. by rewrite app_nil_r.
    + eapply Forall_impl; [apply (mix_only_drive drive_mix spec_mix_powers drive_mix_realize)|].
      intros c [E|E]; unfold is_drive_cmd; simpl in E; by rewrite E.
  - destruct (dispatch_mech b e w) as [cs [-> Hcs]].
    rewrite List.filter_app, (filter_Forall_false is_drive_cmd cs), !app_nil_r; [done|].
    eapply Forall_impl; [exact Hcs|]. intros c Hc. unfold is_drive_cmd.
    destruct (cmd_motor c) as [m|] eqn:E; [|done]. apply Hc in E. simpl in E.
    destruct m; intuition discriminate.
  - by rewrite log_env_move, app_nil_r.
  - by rewrite log_env_arrive, app_nil_r.
Qed.

(** ** The drive thread *)

(** C9: [drive_task]'s loop never exits: no iteration raises, so the
    first [n] iterations all complete whatever the samples, and from
    every state the thread has an infinite run of iterations. *)
Theorem drive_task_runs_forever (w : W) :
  infseq drive_step w /\ forall inp n, fst (drive_loop inp n w) = inr tt.
Proof.
  split.
  - apply total_infseq. intros w'. exists (py_exec (drive_iter 0 0) w'), 0%Z, 0%Z.
    split; [lia|]. split; [lia|]. apply drive_iter_ok.
  - intros inp n. unfold drive_loop.
    destruct (py_loop_total (fun i (_ : unit) => drive_iter (fst (inp i)) (snd (inp i))))
      with n tt w as (a & w' & E).
    + intros i [] s. eexists _, _. apply drive_iter_ok.
    + rewrite E. by destruct a.
Qed.

(** C8: [n] iterations of the loop issue, iteration after iteration,
    the mixer's calls for that iteration's samples, each followed by the
    [sleep(10)] that yields to the callbacks, and leave [precise] alone. *)
Theorem drive_loop_log (inp : nat -> Z * Z) (n : nat) (w : W) :
  log (py_exec (drive_loop inp n) w) = log w ++ loop_cmds (precise (glob w)) inp n /\
  glob (py_exec (drive_loop inp n) w) = glob w.
Proof.
  revert inp w. induction n as [|n IH]; intros inp w.
  - split; [by rewrite app_nil_r | done].
  - assert (E : py_exec (drive_loop inp (S n)) w =
                 py_exec (drive_loop (fun i => inp (S i)) n)
                   (py_exec (drive_iter (fst (inp 0%nat)) (snd (inp 0%nat))) w)).
    { unfold py_exec at 1, drive_loop. by rewrite (py_loop_S _ _ _ _ _ _ (drive_iter_ok _ _ w)). }
    rewrite E. destruct (IH (fun i => inp (S i)) (py_exec (drive_iter (fst (inp 0%nat)) (snd (inp 0%nat))) w))
      as [Hl Hg].
    rewrite Hl, Hg, drive_iter_glob, loop_cmds_S, drive_iter_log, <- !app_assoc.
    by split.
Qed.

(** ** Ownership of the drive motors in a session *)

(** C14: the drive motors are owned by the drive thread: along any
    interleaving of loop iterations, button edges and motor motion, the
    calls that reach the drive motors are exactly, in order, each
    iteration's mixer calls for its samples, computed with [precise] as
    the presses of A before that iteration left it; no callback adds,
    removes or reorders one. *)
Theorem drive_calls_owned (evs : list Event) (w : W) :
  List.filter is_drive_cmd (log (run_events evs w)) =
  List.filter is_drive_cmd (log w) ++ expected_drive (precise (glob w)) evs.
Proof.
  revert w. induction evs as [|ev evs IH]; intros w; [by rewrite app_nil_r|].
  change (run_events (ev :: evs) w) with (run_events evs (exec_event ev w)).
  rewrite IH, exec_event_drive_log, exec_event_precise, <- app_assoc.
  by destruct ev as [y x| | |].
Qed.

(** ** Sampled buttons *)

(** C13: the mode toggle is edge-triggered: dispatching the edges the
    sampler reports for any sequence of button levels flips [precise]
    once per time A goes down, however many samples it is held for. *)
Theorem sampled_toggle_parity (prev : Levels) (samples : list Levels) (w : W) :
  precise (glob (run_events (sampled_events prev samples) w)) =
  xorb (Nat.odd (rises (prev ButtonA) (map (fun l => l ButtonA) samples))) (precise (glob w)).
Proof. by rewrite run_events_precise, presses_sampled, press_count_sampler. Qed.

(** ** Well-formed states *)

(** C10: in every reachable state every motor is idle or doing what
    the program commands: the drive motors spin in percent within
    [-100, 100] or brake, jogged motors spin at their jog power, 0 or its
    opposite or hold, only the arm joint moves without blocking, to a
    preset's second angle at 60, and the tray motor stays idle. *)
Theorem reachable_act_wf (w : W) :
  reachable w -> forall m, act_wf m (act (motors w m)).
Proof. intros Hr. apply (reachable_wf_state w Hr). Qed.

(** C12: the tray motor, constructed on line 18, is never commanded: in
    every reachable state it is idle and no call in the log addresses it. *)
Theorem tray_never_commanded (w : W) :
  reachable w -> act (motors w tray_motor) = Idle /\ Forall no_tray (log w).
Proof.
  intros Hr. split.
  - destruct (reachable_wf_state w Hr) as [_ Ha]. specialize (Ha tray_motor).
    by destruct (act (motors w tray_motor)).
  - induction Hr as [|w ev _ IH Hv].
    + unfold init_world. rewrite log_issue_all. repeat constructor; unfold no_tray; simpl; congruence.
    + destruct (exec_event_no_tray ev w Hv) as [cs [-> Hcs]]. by apply Forall_app_2.
Qed.

(** ** Witnesses *)

Lemma reachable_act_wf_witness :
  reachable (exec_event (EButton ButtonY Pressed) init_world) /\
  forall m, act_wf m (act (motors (exec_event (EButton ButtonY Pressed) init_world) m)).
Proof.
  assert (H : reachable (exec_event (EButton ButtonY Pressed) init_world))
    by (apply reach_step; [constructor | exact I]).
  split; [exact H | apply (reachable_act_wf _ H)].
Defined.

Lemma tray_never_commanded_witness :
  reachable (exec_event (ETick 50 20) init_world) /\
  act (motors (exec_event (ETick 50 20) init_world) tray_motor) = Idle /\
  Forall no_tray (log (exec_event (ETick 50 20) init_world)).
Proof.
  assert (H : reachable (exec_event (ETick 50 20) init_world))
    by (apply reach_step; [constructor | simpl; lia]).
  split; [exact H | apply (tray_never_commanded _ H)].
Defined.

End MediumEricTask.
