(* ===== verification/TinyEric.v ===== *)
(** * Robot 2: [src/tinyEricForever/src/main.py]

    Module [TinyEric] models the whole program: its six motors ([Motor],
    lines 11-18), the globals [speed] and [open] (lines 21-23, record
    [Globals]), [toggle_speed], [recalibrate] and [control_motor] (lines
    26-36), one iteration of [drive_task]'s loop (lines 40-115): the remap
    ([remap_speed], [turning_speed]), the gate monitor ([gate_update],
    [gate_monitor]), the decision tree ([drive_cmds]) and their composition
    [drive_iter]; the set-up line 122 and the callback table (lines
    124-150); and the session: the drive thread, running with its local
    variables or ended by an exception, interleaved with button edges and
    motor motion.

    Python scoping: [drive_task] assigns [speed] (line 49) and declares
    only [open] global (line 56), so [speed] is a local variable of
    [drive_task] throughout, and line 49 reads it before any assignment.
    The thread's local frame is the record [Locals]; [l_speed] is [None]
    until line 49 has assigned it. (The other locals are assigned before
    they are read in every iteration, so their values never matter.)

    The theorems show that the first iteration raises [UnboundLocalError]
    before any motor or screen call, so that in every reachable state the
    drive thread is dead or has not run, no drive motor was ever commanded
    and the screen was never written; that the global [speed] flag never
    influences an iteration; and, for the blocks the loop body is made of,
    the gate monitor's transitions and write count, the remap and the
    refinement of the mixer specification with robot 2's profile. *)

From S2P Require Import Prelude Vex Controller Mixer.

Module TinyEric.

(** ** Devices and globals (lines 10-23) *)

Inductive Motor :=
| left_drive | right_drive
| claw_motor | rack_motor | tray_motor | gate_motor.

#[export] Instance Motor_eq_dec : EqDecision Motor.
Proof. solve_decision. Defined.

Definition motor_port (m : Motor) : Z :=
  match m with
  | left_drive => 1 | right_drive => 3 | claw_motor => 12 | rack_motor => 5
  | tray_motor => 2 | gate_motor => 4
  end.

Definition motor_reversed (m : Motor) : bool :=
  match m with right_drive => true | _ => false end.

#[export] Instance drive_train : DriveTrain Motor :=
  {| Mixer.left_drive := left_drive; Mixer.right_drive := right_drive |}.

(** [speed]: speed mode; [open]: whether the gate was last shown open. *)
Record Globals := { gspeed : bool; gopen : bool }.

Abbreviation W := (World Globals Motor).

(** ** Handlers (lines 25-36) *)

Definition toggle_speed : PyM W unit :=
  g <- get_glob ;;
  set_glob {| gspeed := if gspeed g then false else true; gopen := gopen g |}.

Definition recalibrate : PyM W unit := issue (ResetPosition gate_motor).

Definition control_motor (direction : Z) (motor : Motor) (percent : Z) : PyM W unit :=
  issue (Spin motor FORWARD (inject_Z (direction * percent)) (Some PERCENT)).

(** ** One iteration of [drive_task] (lines 40-115) *)

(** The local frame of [drive_task]. *)
Record Locals := { l_speed : option Q }.

Definition fresh_locals : Locals := {| l_speed := None |}.

(** Line 49: [speed = (10 + abs(y/2.5)) / (0.55 if speed else 1)], where
    the [speed] read is the local one. CPython raises [UnboundLocalError]
    for it (a subclass of [NameError]); MicroPython raises [NameError].
    The model names the CPython class; nothing catches it, so the thread
    ends either way. *)
Definition remap_speed (prev : option Q) (y : Z) : PyExc + Q :=
  match prev with
  | None => inl (UnboundLocalError "speed")
  | Some s => inr ((10 + Qabs (inject_Z y / (5 # 2))) / (if py_truthy s then 11 # 20 else 1))
  end.

(** Line 50: [turningSpeed = (4 if speed else 3)], on the new local. *)
Definition turning_speed (speed : Q) : Q := if py_truthy speed then 4 else 3.

(** Lines 57-66, for the angle [angle] and the global [open]: the screen
    calls and the new value of [open]. *)
Definition gate_update (angle : Q) (open : bool) : list (Cmd Motor) * bool :=
  if (Qltb angle 30 || Qltb 330 angle) && Bool.eqb open true then
    ([ClearScreen; SetCursor 1 0; Print (TLit "Closed")], false)
  else if (Qle_bool 30 angle && Qle_bool angle 330) && Bool.eqb open false then
    ([ClearScreen; SetCursor 1 0; Print (TLit "Open")], true)
  else ([], open).

(** Lines 53-66. *)
Definition gate_monitor : PyM W unit :=
  p <- read_position gate_motor ;;
  g <- get_glob ;;
  let '(cs, o) := gate_update (pymod p 360) (gopen g) in
  issue_all cs ;;
  set_glob {| gspeed := gspeed g; gopen := o |}.

(** Lines 71-111. *)
Definition drive_cmds (y x : Z) (steer speed turningSpeed : Q) : list (Cmd Motor) :=
  if (y >? 5)%Z then
    if (x >? 5)%Z then
      [Spin left_drive FORWARD (speed + steer) (Some PERCENT);
       Spin right_drive FORWARD (speed - steer) (Some PERCENT)]
    else if (x <? -5)%Z then
      [Spin left_drive FORWARD (speed - steer) (Some PERCENT);
       Spin right_drive FORWARD (speed + steer) (Some PERCENT)]
    else
      [Spin left_drive FORWARD speed (Some PERCENT);
       Spin right_drive FORWARD speed (Some PERCENT)]
  else if (y <? -5)%Z then
    if (x >? 5)%Z then
      [Spin left_drive REVERSE (speed - steer) (Some PERCENT);
       Spin right_drive REVERSE (speed + steer) (Some PERCENT)]
    else if (x <? -5)%Z then
      [Spin left_drive REVERSE (speed + steer) (Some PERCENT);
       Spin right_drive REVERSE (speed - steer) (Some PERCENT)]
    else
      [Spin left_drive REVERSE speed (Some PERCENT);
       Spin right_drive REVERSE speed (Some PERCENT)]
  else if (x >? 15)%Z then
    [Spin left_drive FORWARD (speed * turningSpeed) (Some PERCENT);
     Spin right_drive REVERSE (speed * turningSpeed) (Some PERCENT)]
  else if (x <? -15)%Z then
    [Spin left_drive REVERSE (speed * turningSpeed) (Some PERCENT);
     Spin right_drive FORWARD (speed * turningSpeed) (Some PERCENT)]
  else
    [Stop left_drive; Stop right_drive].

(** One loop iteration with samples [axis3 = y], [axis1 = x], from the
    local frame [loc]; it returns the new frame. *)
Definition drive_iter (y x : Z) (loc : Locals) : PyM W Locals :=
  let steer := Qabs (inject_Z x) / 5 in
  speed <- py_lift (remap_speed (l_speed loc) y) ;;
  let turningSpeed := turning_speed speed in
  gate_monitor ;;
  issue_all (drive_cmds y x steer speed turningSpeed) ;;
  issue (Sleep 10) ;;
  py_ret {| l_speed := Some speed |}.

(** ** The script: set-up and callback table (lines 118-150) *)

Definition setup_cmds : list (Cmd Motor) := [SetStopping claw_motor HOLD].

Inductive Handler :=
| HToggleSpeed
| HRecalibrate
| HControlMotor (direction : Z) (motor : Motor) (percent : Z).

Definition run_handler (h : Handler) : PyM W unit :=
  match h with
  | HToggleSpeed => toggle_speed
  | HRecalibrate => recalibrate
  | HControlMotor d m p => control_motor d m p
  end.

Definition jog (b1 b2 : Button) (m : Motor) (pct : Z) : list (Binding Handler) :=
  [mkBinding b1 Pressed (HControlMotor 1 m pct);
   mkBinding b1 Released (HControlMotor 0 m pct);
   mkBinding b2 Pressed (HControlMotor (-1) m pct);
   mkBinding b2 Released (HControlMotor 0 m pct)].

Definition bindings : list (Binding Handler) :=
  [mkBinding ButtonA Pressed HToggleSpeed;
   mkBinding ButtonB Pressed HRecalibrate]
  ++ jog ButtonL1 ButtonL2 rack_motor 100
  ++ jog ButtonR1 ButtonR2 tray_motor 100
  ++ jog ButtonUp ButtonDown claw_motor 100
  ++ jog ButtonLeft ButtonRight gate_motor 25.

(** ** The session *)

Inductive Thread :=
| Running (loc : Locals)
| Ended (e : PyExc).

Record Session := { sw : W; thread : Thread }.

Definition boot_world : W :=
  {| glob := {| gspeed := false; gopen := false |}; motors := fun _ => motor_init; log := [] |}.

Definition init_session : Session :=
  {| sw := py_exec (issue_all setup_cmds) boot_world; thread := Running fresh_locals |}.

Inductive Event :=
| ETick (y x : Z)
| EButton (b : Button) (e : Edge)
| EMove (m : Motor) (p : Q)
| EArrive (m : Motor).

(** A tick runs one iteration of a running thread; an exception ends the
    thread, which then never runs again. *)
Definition tick (y x : Z) (s : Session) : Session :=
  match thread s with
  | Running loc =>
      match drive_iter y x loc (sw s) with
      | (inr loc', w') => {| sw := w'; thread := Running loc' |}
      | (inl e, w') => {| sw := w'; thread := Ended e |}
      end
  | Ended _ => s
  end.

Definition exec_event (ev : Event) (s : Session) : Session :=
  match ev with
  | ETick y x => tick y x s
  | EButton b e => {| sw := dispatch run_handler bindings b e (sw s); thread := thread s |}
  | EMove m p => {| sw := env_move m p (sw s); thread := thread s |}
  | EArrive m => {| sw := env_arrive m (sw s); thread := thread s |}
  end.

Definition valid_event (ev : Event) : Prop :=
  match ev with
  | ETick y x => (-100 <= y <= 100)%Z /\ (-100 <= x <= 100)%Z
  | _ => True
  end.

Inductive reachable : Session -> Prop :=
| reach_init : reachable init_session
| reach_step s ev : reachable s -> valid_event ev -> reachable (exec_event ev s).

(** ** Definitions the statements below use

    Predicates, measures and reference functions in terms of which the
    theorems below are stated. *)

(** What a callback may issue: no drive-motor call, no screen write. *)
Definition quiet_cmd (c : Cmd Motor) : Prop :=
  cmd_motor c <> Some left_drive /\ cmd_motor c <> Some right_drive /\ is_screen_cmd c = false.

Definition handler_motor (h : Handler) : option Motor :=
  match h with
  | HToggleSpeed => None
  | HRecalibrate => Some gate_motor
  | HControlMotor _ m _ => Some m
  end.

Definition with_speed (b : bool) (w : W) : W :=
  {| glob := {| gspeed := b; gopen := gopen (glob w) |}; motors := motors w; log := log w |}.

(** The mode of robot 2's mixer block: the locals [steer], [speed] and
    [turningSpeed] it reads. *)
Definition mix_block (md : Q * Q * Q) (y x : Z) : list (Cmd Motor) :=
  let '(steer, speed, ts) := md in drive_cmds y x steer speed ts.

Definition mix_block_powers (md : Q * Q * Q) (y x : Z) : Q * Q :=
  let '(steer, speed, ts) := md in
  spec_powers OuterRaiseInnerDrop speed steer (speed * ts) (classify y x).

(** Spec 4.1 steps 1 and 5 for robot 2: [steer = |x| / 5] and
    [speed = (10 + |y| / 2.5)] divided by 0.55 in boost mode. *)
Definition spec_steer (x : Z) : Q := inject_Z (Z.abs x) * (1 # 5).

Definition spec_speed (boost : bool) (y : Z) : Q :=
  (10 + inject_Z (Z.abs y) * (2 # 5)) * (if boost then 20 # 11 else 1).

(** The open band of spec 4.6: [30 <= angle <= 330]. *)
Definition open_band (angle : Q) : bool := Qle_bool 30 angle && Qle_bool angle 330.

Definition gate_msg (o : bool) : list (Cmd Motor) :=
  [ClearScreen; SetCursor 1 0; Print (TLit (if o then "Open" else "Closed"))].

#[export] Instance open_band_proper : Proper (Qeq ==> eq) open_band.
Proof.
  intros a a' E. unfold open_band.
  destruct (Qle_bool 30 a) eqn:E1, (Qle_bool 30 a') eqn:E1', (Qle_bool a 330) eqn:E2,
    (Qle_bool a' 330) eqn:E2'; try reflexivity;
    repeat match goal with
           | H : Qle_bool _ _ = true |- _ => apply Qle_bool_iff in H
           | H : Qle_bool _ _ = false |- _ => apply Qle_bool_false in H
           end; exfalso; lra.
Qed.

(** Feeding the monitor a sequence of angles from [open]: the screen
    calls of each pass. *)
Fixpoint gate_run (angles : list Q) (o : bool) : list (list (Cmd Motor)) :=
  match angles with
  | [] => []
  | a :: rest => let '(cs, o') := gate_update a o in cs :: gate_run rest o'
  end.

(** The number of changes in a sequence of booleans. *)
Fixpoint changes (b : bool) (bs : list bool) : nat :=
  match bs with
  | [] => 0
  | b' :: rest => (if Bool.eqb b' b then 0 else 1) + changes b' rest
  end.

Definition configured_brake (m : Motor) : BrakeType :=
  match m with claw_motor => HOLD | _ => COAST end.

(** The world with the gate motor turned by [k] whole turns. *)
Definition turn_gate (k : Z) (w : W) : W :=
  env_move gate_motor (phys (motors w gate_motor) + 360 * inject_Z k) w.

(** ** The drive thread never gets past line 49 *)

Lemma drive_iter_fresh_raises (y x : Z) (w : W) :
  drive_iter y x fresh_locals w = (inl (UnboundLocalError "speed"), w).
Proof. reflexivity. Qed.

(** C2: the first iteration of [drive_task] raises [UnboundLocalError]
    for [speed] at line 49, whatever the joysticks, before any motor or
    screen call: the world is unchanged and the drive thread ends. *)
Theorem first_iteration_raises (y x : Z) (s : Session) :
  thread s = Running fresh_locals ->
  drive_iter y x fresh_locals (sw s) = (inl (UnboundLocalError "speed"), sw s) /\
  tick y x s = {| sw := sw s; thread := Ended (UnboundLocalError "speed") |}.
Proof.
  intros Ht. split; [apply drive_iter_fresh_raises|].
  unfold tick. rewrite Ht, drive_iter_fresh_raises. reflexivity.
Qed.

Lemma tiny_bindings_motor b e h m :
  In h (handlers_for bindings b e) -> handler_motor h = Some m -> m <> left_drive /\ m <> right_drive.
Proof.
  intros Hin Hm. apply handlers_for_In in Hin.
  repeat (destruct Hin as [Hin|Hin];
          [injection Hin; intros; subst; simpl in Hm;
           first [discriminate | injection Hm as <-; split; discriminate]|]).
  destruct Hin.
Qed.

Lemma tiny_handler_quiet h :
  (forall m, handler_motor h = Some m -> m <> left_drive /\ m <> right_drive) ->
  preserves (log_ext quiet_cmd) (run_handler h).
Proof.
  intros Hm. destruct h; simpl in *; unfold toggle_speed, recalibrate, control_motor;
    vex_preserves_tac; try (exists []; by rewrite app_nil_r).
  - apply log_ext_apply. unfold quiet_cmd. simpl. repeat split; discriminate.
  - destruct (Hm motor eq_refl). apply log_ext_apply. unfold quiet_cmd. simpl.
    repeat split; congruence.
Qed.

Lemma tiny_dispatch_quiet b e (w : W) : log_ext quiet_cmd w (dispatch run_handler bindings b e w).
Proof.
  apply (dispatch_rel run_handler (log_ext quiet_cmd)). intros h s Hin.
  apply tiny_handler_quiet. intros m. by apply tiny_bindings_motor with b e.
Qed.

(** C1: in every reachable state the drive thread has either not run yet
    or ended with [UnboundLocalError], and nothing was ever issued to a
    drive motor or written to the screen: robot 2 never drives and never
    shows the gate state. *)
Theorem reachable_never_drives (s : Session) :
  reachable s ->
  (thread s = Running fresh_locals \/ thread s = Ended (UnboundLocalError "speed")) /\
  Forall quiet_cmd (log (sw s)).
Proof.
  induction 1 as [|s ev _ [Ht Hlog] _].
  - split; [by left|]. repeat constructor; simpl; discriminate.
  - destruct ev as [y x|b e|m p|m]; simpl.
    + unfold tick. destruct Ht as [E | E]; rewrite E.
      * rewrite drive_iter_fresh_raises. simpl. split; [by right|done].
      * simpl. split; [by right|done].
    + split; [done|]. destruct (tiny_dispatch_quiet b e (sw s)) as [cs [-> Hcs]].
      by apply Forall_app_2.
    + done.
    + split; [done|]. by rewrite log_env_arrive.
Qed.

(** ** The global [speed] flag is never read by the drive thread *)

Lemma issue_all_with_speed b cs (w : W) :
  issue_all cs (with_speed b w) = (inr tt, with_speed b (py_exec (issue_all cs) w)).
Proof.
  rewrite issue_all_run, exec_issue_all. f_equal. revert w.
  induction cs as [|c cs IH]; intros w; [done|]. simpl.
  change (apply_cmd c (with_speed b w)) with (with_speed b (apply_cmd c w)). apply IH.
Qed.

Lemma issue_all_commutes_speed b cs : commutes (with_speed b) (issue_all cs).
Proof. intros w. by rewrite issue_all_with_speed, (issue_all_run cs w), exec_issue_all. Qed.

Lemma gate_monitor_with_speed b : commutes (with_speed b) gate_monitor.
Proof.
  intros w. unfold gate_monitor, py_bind. simpl.
  destruct (gate_update _ _) as [cs o].
  rewrite issue_all_with_speed, issue_all_run, exec_issue_all. reflexivity.
Qed.

(** C20: the global [speed] that [toggle_speed] flips is neither read nor
    written by a loop iteration: running an iteration commutes with
    setting the flag to any value. *)
Theorem drive_iter_ignores_speed_flag (y x : Z) (loc : Locals) (w : W) (b : bool) :
  drive_iter y x loc (with_speed b w) =
  (fst (drive_iter y x loc w), with_speed b (snd (drive_iter y x loc w))).
Proof.
  revert w. unfold drive_iter.
  repeat first [ apply gate_monitor_with_speed | apply issue_all_commutes_speed
               | intros w; reflexivity
               | apply commutes_bind; [|intros] | apply commutes_lift | apply commutes_ret ].
Qed.

(** ** The mixer block refines the specification *)

Lemma mix_block_realize md y x :
  cmds_eqv (mix_block md y x)
    (realize (classify y x) (fst (mix_block_powers md y x)) (snd (mix_block_powers md y x))).
Proof.
  destruct md as [[st sp] ts]. unfold mix_block, mix_block_powers.
  unfold drive_cmds, classify, spec_powers, realize; zcase; try (exfalso; lia); simpl; reflexivity.
Qed.

Lemma Qabs_div_5_2 (y : Z) : Qabs (inject_Z y / (5 # 2)) == inject_Z (Z.abs y) * (2 # 5).
Proof. unfold Qdiv. rewrite Qabs_Qmult, Qabs_inject. reflexivity. Qed.

Lemma remap_speed_spec s y sp :
  remap_speed (Some s) y = inr sp -> sp == spec_speed (py_truthy s) y.
Proof.
  intros H.
  assert (E : sp = (10 + Qabs (inject_Z y / (5 # 2))) / (if py_truthy s then 11 # 20 else 1))
    by (unfold remap_speed in H; congruence).
  rewrite E. unfold spec_speed.
  rewrite Qabs_div_5_2.
  destruct (py_truthy s); simpl; field.
Qed.

(** The new local [speed] is at least 10, hence truthy. *)
Lemma remap_speed_ge_10 s y sp : remap_speed (Some s) y = inr sp -> 10 <= sp.
Proof.
  intros H. pose proof (remap_speed_spec s y sp H) as E. rewrite E. unfold spec_speed.
  assert (0 <= inject_Z (Z.abs y)) by (change 0 with (inject_Z 0); rewrite <- Zle_Qle; lia).
  destruct (py_truthy s); lra.
Qed.

Lemma turning_speed_4 sp : 10 <= sp -> turning_speed sp = 4.
Proof.
  intros H. unfold turning_speed, py_truthy.
  destruct (Qeq_bool sp 0) eqn:E; [|done]. apply Qeq_bool_eq in E. lra.
Qed.

(** C4: whenever line 49 succeeds (the previous local [speed] being
    bound), the mixer block realises the specification with robot 2's
    profile: arcs raise the outer wheel and drop the inner one by
    [steer = |x| / 5], [speed = (10 + |y| / 2.5)] is divided by 0.55
    exactly when the previous local [speed] is truthy, and rotation runs
    at [4 * speed]: [turningSpeed] is 4 in every mode, its 3 is dead. *)
Theorem mix_block_refines (y x : Z) (s sp : Q) :
  remap_speed (Some s) y = inr sp ->
  sp == spec_speed (py_truthy s) y /\
  cmds_eqv (drive_cmds y x (Qabs (inject_Z x) / 5) sp (turning_speed sp))
    (realize (classify y x)
       (fst (spec_powers OuterRaiseInnerDrop sp (spec_steer x) (sp * 4) (classify y x)))
       (snd (spec_powers OuterRaiseInnerDrop sp (spec_steer x) (sp * 4) (classify y x)))).
Proof.
  intros H. split; [exact (remap_speed_spec s y sp H)|].
  rewrite (turning_speed_4 sp (remap_speed_ge_10 s y sp H)).
  assert (Hst : Qabs (inject_Z x) / 5 == spec_steer x)
    by (unfold spec_steer; rewrite Qabs_inject; field).
  etransitivity; [apply (mix_block_realize (Qabs (inject_Z x) / 5, sp, 4) y x)|].
  unfold mix_block_powers. apply realize_proper; unfold spec_powers;
    destruct (is_rotation (classify y x)), (is_arc (classify y x)), (left_is_inner (classify y x));
    simpl; rewrite ?Hst; reflexivity.
Qed.

(** ** Gate state monitor *)

Lemma gate_update_band (angle : Q) (o : bool) :
  gate_update angle o =
  (if Bool.eqb (open_band angle) o then [] else gate_msg (open_band angle), open_band angle).
Proof.
  unfold gate_update, open_band, Qltb.
  destruct (Qle_bool 30 angle), (Qle_bool angle 330), o; reflexivity.
Qed.

(** C24: one pass of the monitor sets [open] to whether the angle is in
    the open band [30, 330]; it writes the screen exactly when that
    changes [open], and then it clears the screen, moves the cursor to
    row 1 and prints the new state. *)
Theorem gate_update_spec (angle : Q) (o : bool) :
  snd (gate_update angle o) = open_band angle /\
  (fst (gate_update angle o) = [] <-> open_band angle = o) /\
  (open_band angle <> o -> fst (gate_update angle o) = gate_msg (open_band angle)).
Proof.
  rewrite gate_update_band. unfold gate_msg.
  destruct (open_band angle), o; simpl; intuition congruence.
Qed.

(** C25: over any sequence of angles the monitor writes the screen exactly
    as many times as the open/closed band changes along the sequence,
    starting from the current [open]. *)
Theorem gate_writes_count (angles : list Q) (o : bool) :
  List.length (List.filter (fun cs => match cs with [] => false | _ :: _ => true end)
                 (gate_run angles o)) =
  changes o (map open_band angles).
Proof.
  revert o. induction angles as [|a rest IH]; intros o; [done|].
  simpl. rewrite gate_update_band. simpl. rewrite <- IH.
  by destruct (Bool.eqb (open_band a) o).
Qed.

Lemma gate_monitor_run (w : W) :
  let '(cs, o) := gate_update (pymod (position (motors w gate_motor)) 360) (gopen (glob w)) in
  py_exec gate_monitor w =
  {| glob := {| gspeed := gspeed (glob w); gopen := o |};
     motors := motors (py_exec (issue_all cs) w); log := log (py_exec (issue_all cs) w) |}.
Proof.
  unfold gate_monitor, py_exec, py_bind, read_position, get_glob, set_glob. simpl.
  destruct (gate_update _ _) as [cs o]. by rewrite issue_all_run.
Qed.

(** A pass of the monitor logs the screen calls of [gate_update] on the
    gate's angle modulo 360 and sets [open] to its new value. *)
Lemma gate_monitor_exec (w : W) :
  log (py_exec gate_monitor w) =
  log w ++ fst (gate_update (pymod (position (motors w gate_motor)) 360) (gopen (glob w))) /\
  glob (py_exec gate_monitor w) =
  {| gspeed := gspeed (glob w);
     gopen := snd (gate_update (pymod (position (motors w gate_motor)) 360) (gopen (glob w))) |}.
Proof.
  pose proof (gate_monitor_run w) as E.
  destruct (gate_update _ _) as [cs o]. rewrite E. simpl. by rewrite log_issue_all.
Qed.

(** C26: the monitor sees the gate only up to whole turns: turning the
    gate motor by [k] full turns before a pass of [gate_monitor] changes
    neither the screen calls it issues nor the [open] it leaves, because
    line 53 reduces the position modulo 360. *)
Theorem gate_monitor_whole_turns (k : Z) (w : W) :
  log (py_exec gate_monitor (turn_gate k w)) = log (py_exec gate_monitor w) /\
  glob (py_exec gate_monitor (turn_gate k w)) = glob (py_exec gate_monitor w).
Proof.
  destruct (gate_monitor_exec w) as [-> ->], (gate_monitor_exec (turn_gate k w)) as [-> ->].
  assert (E : pymod (position (motors (turn_gate k w) gate_motor)) 360
              == pymod (position (motors w gate_motor)) 360).
  { rewrite <- (pymod_add_multiple (position (motors w gate_motor)) 360 k) by discriminate.
    apply pymod_proper; [|reflexivity]. unfold turn_gate, env_move, fupd, position. simpl.
    ring. }
  rewrite !gate_update_band, (open_band_proper _ _ E). done.
Qed.
(** C27: after [recalibrate] the gate reads 0 degrees, so the next pass of
    the monitor shows it closed; the B button is to be pressed with the
    gate physically closed. *)
Theorem recalibrate_gate_closed (w : W) :
  position (motors (py_exec recalibrate w) gate_motor) == 0 /\
  open_band (pymod (position (motors (py_exec recalibrate w) gate_motor)) 360) = false.
Proof.
  unfold py_exec, recalibrate, issue, py_modify. cbn [snd].
  rewrite motors_apply_cmd_self by done. split; [apply position_reset|].
  rewrite (position_reset gate_motor). reflexivity.
Qed.

(** ** Brakes, mode toggle and jog *)

Lemma tiny_drive_cmds_not_set_stopping y x st sp ts c :
  In c (drive_cmds y x st sp ts) -> is_set_stopping c = false.
Proof. unfold drive_cmds. zcase; simpl; intuition (subst; reflexivity). Qed.

Lemma tiny_gate_update_not_set_stopping a o c :
  In c (fst (gate_update a o)) -> is_set_stopping c = false.
Proof. rewrite gate_update_band. destruct (Bool.eqb _ _); simpl; intuition (subst; reflexivity). Qed.

Lemma tiny_drive_iter_brakes y x loc : preserves brakes_kept (drive_iter y x loc).
Proof.
  unfold drive_iter, gate_monitor. vex_preserves_tac.
  - destruct (gate_update (pymod a0 360) (gopen a1)) as [cs o] eqn:E. vex_preserves_tac.
    + apply brakes_kept_apply. apply (tiny_gate_update_not_set_stopping (pymod a0 360) (gopen a1)).
      by rewrite E.
    + intros m. reflexivity.
  - apply brakes_kept_apply. by eapply tiny_drive_cmds_not_set_stopping.
  - by apply brakes_kept_apply.
Qed.

Lemma tiny_handler_brakes h : preserves brakes_kept (run_handler h).
Proof.
  destruct h; simpl; unfold toggle_speed, recalibrate, control_motor;
    vex_preserves_tac; try (apply brakes_kept_apply; reflexivity); intro; reflexivity.
Qed.

(** C17: in every reachable state each motor has the brake type the script
    configured: only the claw holds; in particular the drive motors are
    never set to brake or hold, so a stop lets them coast. *)
Theorem reachable_tiny_brakes (s : Session) :
  reachable s -> forall m, brake (motors (sw s) m) = configured_brake m.
Proof.
  induction 1 as [|s ev _ IH _]; [intros []; reflexivity|].
  intros m. rewrite <- (IH m). destruct ev as [y x|b e|m' p|m']; simpl.
  - unfold tick. destruct (thread s) as [loc|e]; [|done].
    pose proof (tiny_drive_iter_brakes y x loc (sw s) m) as Hb. unfold py_exec in Hb.
    destruct (drive_iter y x loc (sw s)) as [[e|loc'] w']; exact Hb.
  - apply (dispatch_rel run_handler brakes_kept). intros h w _. apply tiny_handler_brakes.
  - unfold env_move, fupd; simpl. by case_decide; subst.
  - unfold env_arrive. destruct (act _); try done; unfold fupd; simpl; by case_decide; subst.
Qed.

(** C23: [toggle_speed] flips the global [speed], leaves [open], every
    motor and the screen as they were, and issues no call. *)
Theorem toggle_speed_only_flag (w : W) :
  toggle_speed w = (inr tt, with_speed (negb (gspeed (glob w))) w).
Proof. unfold toggle_speed, with_speed, py_bind. simpl. by destruct (gspeed (glob w)). Qed.

(** C33: every jog button of robot 2 spins its motor at
    [direction * percent] percent when pressed ([direction] = 1 or -1;
    the gate at 25 %, the others at 100 %), and at 0 % when released. *)
Theorem jog_press_release_percent (b : Button) (d : Z) (m : Motor) (pct : Z) (w : W) :
  In (mkBinding b Pressed (HControlMotor d m pct)) bindings ->
  (d = 1 \/ d = -1)%Z /\ (pct = if decide (m = gate_motor) then 25 else 100)%Z /\
  log (dispatch run_handler bindings b Pressed w) =
    log w ++ [Spin m FORWARD (inject_Z (d * pct)) (Some PERCENT)] /\
  log (dispatch run_handler bindings b Released w) = log w ++ [Spin m FORWARD 0 (Some PERCENT)].
Proof.
  intros Hin.
  repeat (destruct Hin as [Hin|Hin];
          [injection Hin; intros; subst;
           first [discriminate | split; [lia | split; [reflexivity | split; reflexivity]]]|]).
  destruct Hin.
Qed.

(** ** Witnesses *)

Lemma first_iteration_raises_witness :
  drive_iter 100 0 fresh_locals (sw init_session) =
    (inl (UnboundLocalError "speed"), sw init_session) /\
  tick 100 0 init_session = {| sw := sw init_session; thread := Ended (UnboundLocalError "speed") |}.
Proof. apply first_iteration_raises. reflexivity. Defined.

Lemma reachable_never_drives_witness :
  let s := exec_event (ETick 80 20) (exec_event (EButton ButtonL1 Pressed) init_session) in
  (thread s = Running fresh_locals \/ thread s = Ended (UnboundLocalError "speed")) /\
  Forall quiet_cmd (log (sw s)).
Proof.
  apply reachable_never_drives. apply reach_step; [|simpl; lia].
  apply reach_step; [apply reach_init | exact I].
Defined.

Lemma reachable_tiny_brakes_witness :
  brake (motors (sw (exec_event (EButton ButtonLeft Pressed) init_session)) left_drive)
  = configured_brake left_drive.
Proof.
  apply reachable_tiny_brakes. apply reach_step; [apply reach_init | exact I].
Defined.

Lemma mix_block_refines_witness :
  let sp := (10 + Qabs (inject_Z (-60) / (5 # 2))) / (11 # 20) in
  sp == spec_speed (py_truthy 15) (-60) /\
  cmds_eqv (drive_cmds (-60) 30 (Qabs (inject_Z 30) / 5) sp (turning_speed sp))
    (realize (classify (-60) 30)
       (fst (spec_powers OuterRaiseInnerDrop sp (spec_steer 30) (sp * 4) (classify (-60) 30)))
       (snd (spec_powers OuterRaiseInnerDrop sp (spec_steer 30) (sp * 4) (classify (-60) 30)))).
Proof. apply (mix_block_refines (-60) 30 15). reflexivity. Defined.

Lemma jog_press_release_percent_witness :
  (1 = 1 \/ 1 = -1)%Z /\ (25 = if decide (gate_motor = gate_motor) then 25 else 100)%Z /\
  log (dispatch run_handler bindings ButtonLeft Pressed boot_world) =
    log boot_world ++ [Spin gate_motor FORWARD (inject_Z (1 * 25)) (Some PERCENT)] /\
  log (dispatch run_handler bindings ButtonLeft Released boot_world) =
    log boot_world ++ [Spin gate_motor FORWARD 0 (Some PERCENT)].
Proof. apply (jog_press_release_percent ButtonLeft 1 gate_motor 25 boot_world). simpl. tauto. Defined.

(** ** Robot 2's mixer block implements the interface *)

#[export] Instance mixer_block : DriveMixer Motor (Q * Q * Q) :=
  {| mix := mix_block; mix_powers := mix_block_powers; mix_refines := mix_block_realize |}.

End TinyEric.
