(* ===== verification/TinyEricTask.v ===== *)
(** * Robot 2: the drive thread along a session, and the gate on the screen

    Module [TinyEricTask] follows robot 2's session along a sequence of
    events ([run_events]). The theorems show that along any sequence of
    events the drive thread is running (without having iterated) until
    the first tick and has ended with [UnboundLocalError] from it on, and
    what a pass of the gate monitor leaves on the controller screen
    ([Screen]). *)

From S2P Require Import Prelude Traces Vex Screen Controller Mixer TinyEric.
From stdpp Require Import gmap.

Module TinyEricTask.
Import TinyEric.

Definition run_events (evs : list Event) (s : Session) : Session :=
  fold_left (fun s ev => exec_event ev s) evs s.

Definition is_tick (ev : Event) : bool :=
  match ev with ETick _ _ => true | _ => false end.

(** The states the thread can be in: not yet iterated, or ended at line 49. *)
Definition thread_ok (t : Thread) : Prop :=
  t = Running fresh_locals \/ t = Ended (UnboundLocalError "speed").

(** ** Lemmas *)

Lemma exec_event_thread ev s :
  thread_ok (thread s) ->
  thread (exec_event ev s) = if is_tick ev then Ended (UnboundLocalError "speed") else thread s.
Proof.
  intros Ht. destruct ev as [y x| | |]; simpl; try done.
  unfold tick. destruct Ht as [E|E]; rewrite E; [rewrite drive_iter_fresh_raises|]; done.
Qed.

Lemma run_events_thread evs s :
  thread_ok (thread s) ->
  thread (run_events evs s) =
  if existsb is_tick evs then Ended (UnboundLocalError "speed") else thread s.
Proof.
  revert s. induction evs as [|ev evs IH]; intros s Ht; [done|].
  change (run_events (ev :: evs) s) with (run_events evs (exec_event ev s)). cbn [existsb].
  assert (Ht' : thread_ok (thread (exec_event ev s))).
  { rewrite (exec_event_thread ev s Ht). destruct (is_tick ev); [by right | done]. }
  rewrite (IH _ Ht'), (exec_event_thread ev s Ht).
  by destruct (is_tick ev), (existsb is_tick evs).
Qed.

(** ** Termination of [drive_task] *)

(** C11: along any sequence of events from the start of the program, the
    drive thread is still to run its first iteration until the first
    tick, and has ended with [UnboundLocalError] for [speed] from the
    first tick on: the first tick ends it whatever the samples. *)
Theorem session_thread (evs : list Event) :
  thread (run_events evs init_session) =
  if existsb is_tick evs then Ended (UnboundLocalError "speed") else Running fresh_locals.
Proof. apply run_events_thread. by left. Qed.

(** ** The gate monitor on the screen *)

(** C15: after one pass of the gate monitor every cell of the screen
    shows what it showed before when [open] does not change; when it
    changes, the screen shows the new state's word, "Open" or "Closed",
    on row 1 from column 0 and nothing else, whatever it showed before. *)
Theorem gate_display (nt : Q -> string) (angle : Q) (o : bool) (scr : Screen) (r c : Z) :
  cells (display nt (fst (gate_update angle o)) scr) !! (r, c) =
  if Bool.eqb (open_band angle) o then cells scr !! (r, c)
  else let word := if open_band angle then "Open" else "Closed" in
       if bool_decide (r = 1 /\ 0 <= c < Z.of_nat (String.length word))%Z
       then String.get (Z.to_nat c) word else None.
Proof.
  rewrite gate_update_band. simpl fst. destruct (Bool.eqb (open_band angle) o); [done|].
  cbn [display fold_left screen_step cells cursor text_of gate_msg].
  rewrite lookup_put, lookup_empty, Z.sub_0_r. by destruct (open_band angle).
Qed.

End TinyEricTask.
